(** * iceoryx: PolymorphicHandler and ChunkQueueError

    A shallow embedding of
    [iceoryx_hoofs/internal/design_pattern/polymorphic_handler.inl] and
    [iceoryx_posh/internal/popo/building_blocks/chunk_queue_types.hpp].

    Handler objects are identified by their address.  The shared memory of
    the process is a record [World]; every member function becomes a
    computation in a small state-and-failure monad [M] over it.  The atomic
    accesses of the source are the primitive computations; the second half
    of the file runs them one at a time under an arbitrary scheduler. *)

From stdpp Require Import base option list gmap.

Set Default Proof Using "Type".

(** ** chunk_queue_types.hpp *)

Module popo.

Inductive ChunkQueueError : Set :=
| SEMAPHORE_ALREADY_SET
| QUEUE_OVERFLOW.

#[export] Instance ChunkQueueError_eq_dec : EqDecision ChunkQueueError.
Proof. solve_decision. Defined.

(** The enumerators in declaration order, and the integer the compiler
    assigns to each one (no explicit initialisers in the source). *)
Definition ChunkQueueError_all : list ChunkQueueError :=
  [SEMAPHORE_ALREADY_SET; QUEUE_OVERFLOW].

Definition ChunkQueueError_value (e : ChunkQueueError) : Z :=
  match e with
  | SEMAPHORE_ALREADY_SET => 0
  | QUEUE_OVERFLOW => 1
  end.

End popo.

(** ** polymorphic_handler.inl: the data *)

(** The address of a handler object ([Interface*] without the null value). *)
Abbreviation addr := positive (only parsing).
(** A thread of the process. *)
Abbreviation tid := nat (only parsing).

(** The two atomics of a [PolymorphicHandler] object.  [None] in
    [m_current] is [nullptr]. *)
Record Registry : Type := mkRegistry {
  m_current : option addr;
  m_isFinal : bool
}.

(** The memory the functions of the file touch.
    - [flags]: [Activatable::m_active] of every handler object that was
      written at least once;
    - [registry]: the singleton behind [instance()], [None] until the first
      access constructs it;
    - [localHandler]: the [thread_local] of [get], one slot per thread, absent
      until the thread has run its initialiser.
    The remaining three fields are ghost state that no function reads:
    [hookCalls] records the argument pairs of every call of
    [Hooks::onSetAfterFinalize] (newest first), [currentLoads] counts the
    loads of [m_current], [installed] lists every pointer ever stored to
    [m_current] (newest first). *)
Record World : Type := mkWorld {
  flags : gmap addr bool;
  registry : option Registry;
  localHandler : gmap tid (option addr);
  hookCalls : list (addr * addr);
  currentLoads : nat;
  installed : list addr
}.

Definition with_flags (f : gmap addr bool) (w : World) : World :=
  mkWorld f (registry w) (localHandler w) (hookCalls w) (currentLoads w) (installed w).
Definition with_registry (r : option Registry) (w : World) : World :=
  mkWorld (flags w) r (localHandler w) (hookCalls w) (currentLoads w) (installed w).
Definition with_localHandler (l : gmap tid (option addr)) (w : World) : World :=
  mkWorld (flags w) (registry w) l (hookCalls w) (currentLoads w) (installed w).
Definition with_hookCalls (h : list (addr * addr)) (w : World) : World :=
  mkWorld (flags w) (registry w) (localHandler w) h (currentLoads w) (installed w).
Definition with_currentLoads (n : nat) (w : World) : World :=
  mkWorld (flags w) (registry w) (localHandler w) (hookCalls w) n (installed w).
Definition with_installed (l : list addr) (w : World) : World :=
  mkWorld (flags w) (registry w) (localHandler w) (hookCalls w) (currentLoads w) l.

(** The process before anything ran: no flag written, no registry, no
    thread-local initialised. *)
Definition process_start : World := mkWorld ∅ None ∅ [] 0 [].

(** ** The monad *)

(** A call returns a value and a new world, or ends the process through
    [std::terminate], or dereferences a null pointer. *)
Inductive Result (A : Type) : Type :=
| Ret (a : A) (w : World)
| Terminated (w : World)
| Undefined.
Arguments Ret {A} a w.
Arguments Terminated {A} w.
Arguments Undefined {A}.

Definition M (A : Type) : Type := World → Result A.

#[export] Instance M_ret : MRet M := λ A a w, Ret a w.

#[export] Instance M_bind : MBind M := λ A B k m w,
  match m w with
  | Ret a w' => k a w'
  | Terminated w' => Terminated w'
  | Undefined => Undefined
  end.

(** [std::terminate()]. *)
Definition terminate {A} : M A := λ w, Terminated w.

(** Reading and updating the world. *)
Definition gets {A} (f : World → A) : M A := λ w, Ret (f w) w.
Definition modify (f : World → World) : M unit := λ w, Ret () (f w).

(** [*p] for a pointer [p]. *)
Definition deref (p : option addr) : M addr :=
  λ w, match p with Some a => Ret a w | None => Undefined end.

(** The world a computation ends in, when it ends in one. *)
Definition world_of {A} (r : Result A) : option World :=
  match r with
  | Ret _ w => Some w
  | Terminated w => Some w
  | Undefined => None
  end.

(** The value a computation returns, when it returns. *)
Definition value_of {A} (r : Result A) : option A :=
  match r with
  | Ret a _ => Some a
  | _ => None
  end.

(** ** Activatable *)

(** Modelled from the spec: the initial value of [Activatable::m_active] is
    declared in polymorphic_handler.hpp, which is not part of the sources;
    the specification has every Activatable "created active by default".  A
    flag that was never written therefore reads [true]. *)
Definition Activatable_initial : bool := true.

Definition flag_of (w : World) (a : addr) : bool :=
  default Activatable_initial (flags w !! a).

Definition m_active_store (a : addr) (b : bool) (w : World) : World :=
  with_flags (<[a := b]> (flags w)) w.

Definition activate (a : addr) : M unit := modify (m_active_store a true).

Definition deactivate (a : addr) : M unit := modify (m_active_store a false).

Definition isActive (a : addr) : M bool := gets (λ w, flag_of w a).

(** Copy construction of the Activatable at [src] into a new object at
    [dst], and assignment [*dst = *src]: both take the value the source flag
    has at that moment, the assignment unless source and target are the same
    object. *)
Definition Activatable_copy (dst src : addr) : M unit :=
  b ← isActive src; modify (m_active_store dst b).

Definition Activatable_assign (dst src : addr) : M unit :=
  if decide (dst ≠ src)
  then b ← isActive src; modify (m_active_store dst b)
  else mret ().

(** ** The misuse hook *)

(** What a call of [Hooks::onSetAfterFinalize] does to the caller: it comes
    back, or it ends the process.  The hook is handed the two handlers by
    reference; the model records the call in [hookCalls] and lets the policy
    decide between the two outcomes from the arguments.  A hook is taken to
    leave the registry and the flags of the handlers alone. *)
Inductive HookOutcome : Set :=
| HookReturns
| HookTerminates.

Class Hooks : Type := onSetAfterFinalize : addr → addr → HookOutcome.

(** [detail::DefaultHooks<Interface>::onSetAfterFinalize] calls
    [std::terminate()]. *)
Definition DefaultHooks : Hooks := λ _ _, HookTerminates.

(** A policy whose hook returns, as a test build installs it. *)
Definition ReturningHooks : Hooks := λ _ _, HookReturns.

(** ** PolymorphicHandler<Interface, Default, Hooks> *)

Section PolymorphicHandler.

(** The template parameters: [Default] is the address of
    [StaticLifetimeGuard<Default>::instance()], the one object of the default
    handler type; [hooks] is the [Hooks] policy. *)
Context (Default : addr) (hooks : Hooks).

Definition getDefault : M addr := mret Default.

(** Modelled from the spec: the member initialiser of [m_isFinal] is in
    polymorphic_handler.hpp, which is not part of the sources; the
    specification starts every registry in the state Open. *)
Definition m_isFinal_initial : bool := false.

(** The constructor: [m_current.store(&getDefault())]. *)
Definition PolymorphicHandler_new : M Registry :=
  d ← getDefault;
  let r := mkRegistry (Some d) m_isFinal_initial in
  modify (λ w, with_installed (d :: installed w) (with_registry (Some r) w));;
  mret r.

(** [instance()]: the singleton, constructed by the first access. *)
Definition instance : M Registry :=
  obj ← gets registry;
  match obj with
  | Some r => mret r
  | None => PolymorphicHandler_new
  end.

(** The atomic accesses to the two members of [instance()]. *)
Definition m_isFinal_load : M bool :=
  r ← instance; mret (m_isFinal r).

Definition m_isFinal_store (b : bool) : M unit :=
  r ← instance;
  modify (with_registry (Some (mkRegistry (m_current r) b))).

Definition m_current_load : M (option addr) :=
  r ← instance;
  modify (λ w, with_currentLoads (S (currentLoads w)) w);;
  mret (m_current r).

Definition m_current_exchange (p : addr) : M (option addr) :=
  r ← instance;
  modify (λ w, with_installed (p :: installed w)
                 (with_registry (Some (mkRegistry (Some p) (m_isFinal r))) w));;
  mret (m_current r).

Definition getCurrent : M (option addr) := m_current_load.

(** The call [Hooks::onSetAfterFinalize(cur, attempted)]. *)
Definition call_onSetAfterFinalize (cur attempted : addr) : M unit :=
  modify (λ w, with_hookCalls ((cur, attempted) :: hookCalls w) w);;
  match onSetAfterFinalize cur attempted with
  | HookReturns => mret ()
  | HookTerminates => terminate
  end.

(** [setHandler(Interface& handler)]; the result is the returned
    [Interface*]. *)
Definition setHandler (handler : addr) : M (option addr) :=
  instance;;
  final ← m_isFinal_load;
  if (final : bool) then
    cur ← getCurrent;
    c ← deref cur;
    call_onSetAfterFinalize c handler;;
    mret None
  else
    activate handler;;
    prev ← m_current_exchange handler;
    (if decide (Some handler ≠ prev)
     then p ← deref prev; deactivate p
     else mret ());;
    mret prev.

(** [set(StaticLifetimeGuard<Handler>)]; [handler] is the address of
    [StaticLifetimeGuard<Handler>::instance()].  The function-local
    [static StaticLifetimeGuard<Handler> guard(handlerGuard)] of the source
    is left out: [StaticLifetimeGuard] is not among the sources, the guard
    pins the handler object and writes nothing of the state below.  Its
    initialisation, which the first call runs and concurrent first calls
    wait for, takes no step here, and neither does the construction of the
    registry behind [instance()]: nothing below says how long a call
    takes. *)
Definition set (handler : addr) : M (option addr) := setHandler handler.

Definition reset : M (option addr) :=
  d ← getDefault; setHandler d.

Definition finalize : M unit :=
  m_isFinal_store true.

(** The declaration [thread_local Interface* localHandler = getCurrent();]
    as thread [t] passes it: the initialiser runs on the first pass only. *)
Definition localHandler_store (t : tid) (p : option addr) : M unit :=
  modify (λ w, with_localHandler (<[t := p]> (localHandler w)) w).

Definition localHandler_decl (t : tid) : M (option addr) :=
  slot ← gets (λ w, localHandler w !! t);
  match slot with
  | Some p => mret p
  | None => p ← getCurrent; localHandler_store t p;; mret p
  end.

(** [get()] called on thread [t]; the result is the handler the returned
    reference is bound to. *)
Definition get (t : tid) : M addr :=
  lh ← localHandler_decl t;
  a ← deref lh;
  active ← isActive a;
  if negb active then
    p ← getCurrent;
    localHandler_store t p;;
    deref p
  else mret a.

(** ** The calls, one atomic access at a time

    A thread is a list of calls still to make, a program point inside the
    call it is in, and the values its finished calls returned.  Every step of
    a thread performs at most one access to shared memory, the one the source
    performs at that point; the scheduler picks which thread steps next. *)

Inductive Call : Set :=
| CallGet
| CallSet (handler : addr)
| CallReset
| CallFinalize.

Inductive Value : Set :=
| VRef (a : addr)               (* the [Interface&] of [get] *)
| VPtr (p : option addr)        (* the [Interface*] of [set] and [reset] *)
| VVoid.                        (* [finalize] *)

Inductive Pc : Set :=
| Idle                                    (* between two calls *)
| GetDecl                                 (* at [thread_local ... localHandler] *)
| GetIsActive                             (* at [localHandler->isActive()] *)
| GetReload                               (* at [localHandler = getCurrent()] *)
| GetReturn                               (* at [return *localHandler] *)
| SetIsFinal (handler : addr)             (* at [ins.m_isFinal.load] *)
| SetHookCurrent (handler : addr)         (* at [*getCurrent()] *)
| SetHook (cur handler : addr)            (* at the call of the hook *)
| SetActivate (handler : addr)            (* at [handler.activate()] *)
| SetExchange (handler : addr)            (* at [ins.m_current.exchange] *)
| SetDeactivate (prev : option addr)      (* at [prev->deactivate()] *)
| SetReturn (ret : option addr)           (* at [return] of [setHandler] *)
| FinalizeStore.                          (* at [m_isFinal.store(true)] *)

Record Thread : Set := mkThread {
  pc : Pc;
  todo : list Call;
  returned : list Value                   (* newest first *)
}.

Definition at_pc (p : Pc) (th : Thread) : Thread :=
  mkThread p (todo th) (returned th).

Definition return_with (v : Value) (th : Thread) : Thread :=
  mkThread Idle (todo th) (v :: returned th).

(** Entering the next call. *)
Definition enter (c : Call) (rest : list Call) (th : Thread) : M Thread :=
  match c with
  | CallGet => mret (mkThread GetDecl rest (returned th))
  | CallSet h => mret (mkThread (SetIsFinal h) rest (returned th))
  | CallReset => d ← getDefault; mret (mkThread (SetIsFinal d) rest (returned th))
  | CallFinalize => mret (mkThread FinalizeStore rest (returned th))
  end.

(** One step of thread [t].  At [GetIsActive] and [GetReturn] the
    thread-local is initialised, and [localHandler_decl] only reads it. *)
Definition thread_step (t : tid) (th : Thread) : M Thread :=
  match pc th with
  | Idle =>
      match todo th with
      | [] => mret th
      | c :: rest => enter c rest th
      end
  | GetDecl =>
      localHandler_decl t;;
      mret (at_pc GetIsActive th)
  | GetIsActive =>
      lh ← localHandler_decl t;
      a ← deref lh;
      active ← isActive a;
      mret (at_pc (if negb active then GetReload else GetReturn) th)
  | GetReload =>
      p ← getCurrent;
      localHandler_store t p;;
      mret (at_pc GetReturn th)
  | GetReturn =>
      lh ← localHandler_decl t;
      a ← deref lh;
      mret (return_with (VRef a) th)
  | SetIsFinal h =>
      instance;;
      final ← m_isFinal_load;
      mret (at_pc (if (final : bool) then SetHookCurrent h else SetActivate h) th)
  | SetHookCurrent h =>
      cur ← getCurrent;
      c ← deref cur;
      mret (at_pc (SetHook c h) th)
  | SetHook c h =>
      call_onSetAfterFinalize c h;;
      mret (at_pc (SetReturn None) th)
  | SetActivate h =>
      activate h;;
      mret (at_pc (SetExchange h) th)
  | SetExchange h =>
      prev ← m_current_exchange h;
      mret (at_pc (if decide (Some h ≠ prev)
                   then SetDeactivate prev else SetReturn prev) th)
  | SetDeactivate prev =>
      p ← deref prev;
      deactivate p;;
      mret (at_pc (SetReturn prev) th)
  | SetReturn r =>
      mret (return_with (VPtr r) th)
  | FinalizeStore =>
      m_isFinal_store true;;
      mret (return_with VVoid th)
  end.

(** The scheduler lets thread [t] of the pool make one step; a thread that
    is not in the pool does nothing. *)
Definition step (t : tid) (pool : gmap tid Thread) : M (gmap tid Thread) :=
  match pool !! t with
  | Some th => th' ← thread_step t th; mret (<[t := th']> pool)
  | None => mret pool
  end.

Fixpoint run (schedule : list tid) (pool : gmap tid Thread) : M (gmap tid Thread) :=
  match schedule with
  | [] => mret pool
  | t :: rest => pool' ← step t pool; run rest pool'
  end.

(** What the finished [get] calls of thread [t] returned, newest first. *)
Definition refs_of (vs : list Value) : list addr :=
  omap (λ v, match v with VRef a => Some a | _ => None end) vs.

Definition returned_by (t : tid) (pool : gmap tid Thread) : list Value :=
  from_option returned [] (pool !! t).

(** ** The calls, run to completion *)

(** A whole call made by thread [t], with nothing happening in between. *)
Definition do_call (t : tid) (c : Call) : M Value :=
  match c with
  | CallGet => a ← get t; mret (VRef a)
  | CallSet h => p ← set h; mret (VPtr p)
  | CallReset => p ← reset; mret (VPtr p)
  | CallFinalize => finalize;; mret VVoid
  end.

Fixpoint do_calls (cs : list (tid * Call)) : M (list Value) :=
  match cs with
  | [] => mret []
  | (t, c) :: rest => v ← do_call t c; vs ← do_calls rest; mret (v :: vs)
  end.

(** ** What the theorems speak about *)

(** The registry the next access finds: the constructed one, or the one the
    constructor is about to make. *)
Definition ins (w : World) : Registry :=
  default (mkRegistry (Some Default) m_isFinal_initial) (registry w).

Definition current (w : World) : option addr := m_current (ins w).

Definition is_final (w : World) : bool := m_isFinal (ins w).

(** The world after [instance()] ran. *)
Definition construct (w : World) : World :=
  match registry w with
  | Some _ => w
  | None =>
      with_installed (Default :: installed w)
        (with_registry (Some (mkRegistry (Some Default) m_isFinal_initial)) w)
  end.

(** Pointers are never null and point to handlers that were installed; a
    thread-local is initialised only after the registry was constructed. *)
Definition wf (w : World) : Prop :=
  (∀ r, registry w = Some r → ∃ c, m_current r = Some c ∧ c ∈ installed w) ∧
  (∀ t p, localHandler w !! t = Some p →
     is_Some (registry w) ∧ ∃ a, p = Some a ∧ a ∈ installed w).

(** The current handler is active and no other installed handler is. *)
Definition one_active (w : World) : Prop :=
  ∃ c, current w = Some c ∧ flag_of w c = true ∧
       ∀ a, a ∈ installed w → a ≠ c → flag_of w a = false.

(** The world an accepted [setHandler(handler)] leaves, [prev] being the
    handler it found current. *)
Definition installs (handler prev : addr) (w : World) : World :=
  let w1 := m_active_store handler true (construct w) in
  let w2 := with_installed (handler :: installed w1)
              (with_registry (Some (mkRegistry (Some handler) false)) w1) in
  if decide (handler = prev) then w2 else m_active_store prev false w2.

(** The world a rejected [setHandler(handler)] leaves: one load of
    [m_current], which found [cur], and one call of the hook. *)
Definition rejects (cur handler : addr) (w : World) : World :=
  with_hookCalls ((cur, handler) :: hookCalls w)
    (with_currentLoads (S (currentLoads w)) (construct w)).

(** The world after thread [t] loaded [m_current], found [c] and stored it
    in its [localHandler]. *)
Definition caches (t : tid) (c : addr) (w : World) : World :=
  with_localHandler (<[t := Some c]> (localHandler w))
    (with_currentLoads (S (currentLoads w)) (construct w)).

(** The world after [finalize()]. *)
Definition finalizes (w : World) : World :=
  with_registry (Some (mkRegistry (current w) true)) (construct w).

(** A world in which no handler but the default was ever installed and no
    flag was written. *)
Definition pristine (w : World) : Prop :=
  wf w ∧ flags w = ∅ ∧ current w = Some Default ∧
  ∀ t p, localHandler w !! t = Some p → p = Some Default.

(** A thread that calls nothing but [get]. *)
Definition getter (th : Thread) : Prop :=
  match pc th with
  | Idle | GetDecl | GetIsActive | GetReload | GetReturn => True
  | _ => False
  end ∧ Forall (λ c, c = CallGet) (todo th).

(** A thread that has made all its calls. *)
Definition finished (th : Thread) : Prop := pc th = Idle ∧ todo th = [].

(** Two worlds that differ in thread-locals and ghost counters only. *)
Definition same_shared (w w' : World) : Prop :=
  flags w' = flags w ∧ registry w' = registry w ∧ installed w' = installed w.

(** Where a thread is in its one call [set(h)], and what the shared memory
    looks like at that point when the call started with one handler active
    and nobody else installs handlers. *)
Definition set_phase (h : addr) (th : Thread) (w : World) : Prop :=
  is_Some (registry w) ∧
  match pc th, todo th with
  | Idle, [CallSet h'] => h' = h ∧ one_active w ∧ is_final w = false
  | SetIsFinal h', [] | SetActivate h', [] =>
      h' = h ∧ one_active w ∧ is_final w = false
  | SetExchange h', [] =>
      h' = h ∧ is_final w = false ∧
      ∃ c, current w = Some c ∧ flag_of w c = true ∧ flag_of w h = true ∧
           ∀ a, a ∈ installed w → a ≠ c → a ≠ h → flag_of w a = false
  | SetDeactivate p, [] =>
      ∃ c, p = Some c ∧ c ≠ h ∧ current w = Some h ∧ flag_of w h = true ∧
           ∀ a, a ∈ installed w → a ≠ h → a ≠ c → flag_of w a = false
  | SetReturn _, [] | Idle, [] => one_active w ∧ current w = Some h
  | _, _ => False
  end.

(** The value the [get] in flight on thread [t] is about to return is [h],
    when the thread stands at the [return]. *)
Definition returns_next (h : addr) (t : tid) (th : Thread) (w : World) : Prop :=
  pc th = GetReturn →
  localHandler w !! t = Some (Some h) ∨
  (localHandler w !! t = None ∧ current w = Some h).

(** Every thread of [programs] at the start of its list of calls. *)
Definition spawn (programs : gmap tid (list Call)) : gmap tid Thread :=
  (λ cs, mkThread Idle cs []) <$> programs.

(** The pointer a thread holds in [prev] when it is about to call
    [prev->deactivate()] is not null. *)
Definition thread_ok (th : Thread) : Prop :=
  match pc th with
  | SetDeactivate p => is_Some p
  | _ => True
  end.

(** The world is well formed, and every thread of the pool is, and has
    returned from [get] only handlers that were installed. *)
Definition pool_ok (pool : gmap tid Thread) (w : World) : Prop :=
  wf w ∧
  ∀ t th, pool !! t = Some th →
    thread_ok th ∧ ∀ a, a ∈ refs_of (returned th) → a ∈ installed w.

(** While one thread [A] calls [set(h)] and every other thread only calls
    [get]: the world is well formed and [A] is at one of the points of
    [set_phase]. *)
Definition swap_inv (A : tid) (h : addr) (pool : gmap tid Thread) (w : World) : Prop :=
  wf w ∧
  (∃ thA, pool !! A = Some thA ∧ set_phase h thA w) ∧
  (∀ t th, t ≠ A → pool !! t = Some th → getter th).

(** After [A] returned from [set(h)]: the handlers thread [B] returned
    since then are, newest first, [h] some number of times, then at most one
    other handler, then what it had returned before ([rs]).  [P] is a
    condition on the moment [set] returned under which there is no other
    handler at all. *)
Definition settled_inv (A B : tid) (h : addr) (rs : list addr) (P : Prop)
    (pool : gmap tid Thread) (w : World) : Prop :=
  swap_inv A h pool w ∧
  (∃ thA, pool !! A = Some thA ∧ finished thA) ∧
  ∃ k stale,
    refs_of (returned_by B pool) = replicate k h ++ stale ++ rs ∧
    length stale ≤ 1 ∧
    (P → stale = []) ∧
    ∀ thB, pool !! B = Some thB →
           (returns_next h B thB w ∨ (k = 0 ∧ stale = [])) ∧
           (P → returns_next h B thB w).

(** [reset()] as the specification words it: [set] called with the default
    handler instance as the argument. *)
Definition reset_as_specified : M (option addr) := set Default.

(** A call that is neither [set] nor [reset]. *)
Definition no_install (c : Call) : Prop :=
  match c with
  | CallGet | CallFinalize => True
  | CallSet _ | CallReset => False
  end.

(** A program point from which the thread's next step neither writes a flag
    nor touches [m_current] nor calls the hook. *)
Definition calm (p : Pc) : Prop :=
  match p with
  | Idle | GetDecl | GetIsActive | GetReload | GetReturn
  | SetIsFinal _ | FinalizeStore => True
  | _ => False
  end.

(** A step that wrote nothing: no flag, no hook call, and the registry as
    it was or as [instance()] constructed it. *)
Definition unchanged (w w' : World) : Prop :=
  flags w' = flags w ∧ hookCalls w' = hookCalls w ∧
  ((registry w' = registry w ∧ installed w' = installed w) ∨
   (registry w' = registry (construct w) ∧
    installed w' = installed (construct w))).

(** What one step does to the thread's program point and to shared
    memory, by the program point it starts from. *)
Definition step_effect (th th' : Thread) (w w' : World) : Prop :=
  match pc th with
  | Idle | GetDecl | GetIsActive | GetReload | GetReturn =>
      unchanged w w' ∧ calm (pc th')
  | SetIsFinal h =>
      unchanged w w' ∧
      pc th' = (if is_final w then SetHookCurrent h else SetActivate h)
  | SetHookCurrent h =>
      unchanged w w' ∧ ∃ c, pc th' = SetHook c h
  | SetHook c h =>
      flags w' = flags w ∧ registry w' = registry w ∧
      installed w' = installed w ∧
      hookCalls w' = (c, h) :: hookCalls w ∧ pc th' = SetReturn None
  | SetActivate h =>
      flags w' = <[h := true]> (flags w) ∧ registry w' = registry w ∧
      installed w' = installed w ∧ hookCalls w' = hookCalls w ∧
      pc th' = SetExchange h
  | SetExchange h =>
      ∃ c, current w = Some c ∧
           flags w' = flags w ∧ hookCalls w' = hookCalls w ∧
           registry w' = Some (mkRegistry (Some h) (is_final w)) ∧
           installed w' = h :: installed (construct w) ∧
           pc th' = (if decide (h = c) then SetReturn (Some c)
                     else SetDeactivate (Some c))
  | SetDeactivate p =>
      ∃ c, p = Some c ∧
           flags w' = <[c := false]> (flags w) ∧ registry w' = registry w ∧
           installed w' = installed w ∧ hookCalls w' = hookCalls w ∧
           pc th' = SetReturn p
  | SetReturn _ =>
      unchanged w w' ∧ pc th' = Idle
  | FinalizeStore =>
      flags w' = flags w ∧ hookCalls w' = hookCalls w ∧
      registry w' = Some (mkRegistry (current w) true) ∧
      installed w' = installed (construct w) ∧ pc th' = Idle
  end.

(** Some thread is about to exchange [a] into [m_current], or to
    deactivate [a]. *)
Definition swap_pending (a : addr) (pool : gmap tid Thread) : Prop :=
  ∃ t th, pool !! t = Some th ∧
          (pc th = SetExchange a ∨ pc th = SetDeactivate (Some a)).

(** An installed handler that is active and not current has a thread that
    is about to make it current or to deactivate it. *)
Definition converging (pool : gmap tid Thread) (w : World) : Prop :=
  pool_ok pool w ∧
  ∀ a, a ∈ installed w → current w ≠ Some a → flag_of w a = true →
       swap_pending a pool.

(** A program point of [setHandler] between the exchange of [m_current]
    and the deactivation of the previous handler, or just before the
    exchange. *)
Definition swapping (p : Pc) : bool :=
  match p with
  | SetExchange _ | SetDeactivate _ => true
  | _ => false
  end.

(** A program point that is not inside the part of [setHandler] that
    writes: after the check of [m_isFinal] passed, before the return. *)
Definition swap_free (p : Pc) : bool :=
  match p with
  | SetActivate _ | SetExchange _ | SetDeactivate _ => false
  | _ => true
  end.

(** The registry is final, its flags and its members are [fl] and [r], and
    no thread is inside the writing part of [setHandler]. *)
Definition frozen (fl : gmap addr bool) (r : option Registry)
    (pool : gmap tid Thread) (w : World) : Prop :=
  pool_ok pool w ∧ is_final w = true ∧ flags w = fl ∧ registry w = r ∧
  map_Forall (λ _ th, swap_free (pc th) = true) pool.

(** A program point on the rejected path of [setHandler], before the hook
    has returned. *)
Definition rejecting (p : Pc) : bool :=
  match p with
  | SetHookCurrent _ | SetHook _ _ => true
  | _ => false
  end.

(** While the registry is open the hook has not been called and no thread
    is on its way to call it. *)
Definition hook_unused (pool : gmap tid Thread) (w : World) : Prop :=
  pool_ok pool w ∧
  (is_final w = false →
   hookCalls w = [] ∧ map_Forall (λ _ th, rejecting (pc th) = false) pool).

(** A sequence of [set] calls: thread and handler of each. *)
Definition set_calls (cs : list (tid * addr)) : list (tid * Call) :=
  (λ th, (th.1, CallSet th.2)) <$> cs.

End PolymorphicHandler.


(** ** A process to evaluate the model on

    The registry of the end-to-end scenario of the specification: an
    interface with the default handler [NullLogger] and two more handlers;
    two threads. *)

Definition NullLogger : addr := 1.
Definition CountingLogger : addr := 2.
Definition AnotherLogger : addr := 3.

Definition writer : tid := 0.
Definition reader : tid := 1.

(** The world after [finalize()] was the first call of the process. *)
Definition finalized_at_start : World :=
  mkWorld ∅ (Some (mkRegistry (Some NullLogger) true)) ∅ [] 0 [NullLogger].

(** Two writers race: thread 0 has installed [CountingLogger] and calls
    [set(NullLogger)], thread 2 calls [set(CountingLogger)], and each
    deactivates what the other has just installed.  The reader has called
    [get()] before all that. *)
Definition racing_pool : gmap tid Thread :=
  spawn {[0 := [CallSet CountingLogger; CallSet NullLogger];
          reader := [CallGet];
          2 := [CallSet CountingLogger]]}.

Definition racing_schedule : list tid :=
  replicate 4 reader ++ replicate 6 0 ++
  replicate 4 0 ++ replicate 6 2 ++ replicate 2 0.

(** The world that run leaves: [CountingLogger] is current and inactive,
    and the reader still caches [NullLogger], which is inactive as well. *)
Definition raced_world : World :=
  mkWorld {[NullLogger := false; CountingLogger := false]}
          (Some (mkRegistry (Some CountingLogger) false))
          {[reader := Some NullLogger]} [] 1
          [CountingLogger; NullLogger; CountingLogger; NullLogger].

(** The writer is about to call [set(CountingLogger)], the reader to call
    [get()] three times. *)
Definition swap_pool : gmap tid Thread :=
  {[writer := mkThread Idle [CallSet CountingLogger] [];
    reader := mkThread Idle [CallGet; CallGet; CallGet] []]}.

(** One writer that swaps the handler, one reader. *)
Definition one_swap : gmap tid (list Call) :=
  {[writer := [CallSet CountingLogger]; reader := [CallGet]]}.

(** A writer that calls [finalize()] and then, against the protocol,
    [set]. *)
Definition set_after_finalize_programs : gmap tid (list Call) :=
  {[writer := [CallFinalize; CallSet CountingLogger]; reader := [CallGet]]}.

Definition finalizer : tid := 2.

(** A [set] on one thread and a [finalize()] on another. *)
Definition set_and_finalize : gmap tid (list Call) :=
  {[writer := [CallSet CountingLogger]; finalizer := [CallFinalize]]}.


(** * Properties *)

Ltac munfold :=
  unfold do_call, reset_as_specified, set, reset, setHandler, finalize, get,
    getCurrent, getDefault,
    instance, PolymorphicHandler_new, m_isFinal_load, m_isFinal_store,
    m_current_load, m_current_exchange, call_onSetAfterFinalize,
    localHandler_store, localHandler_decl, activate, deactivate, isActive,
    deref, terminate, gets, modify, mbind, M_bind, mret, M_ret,
    installs, rejects, caches, finalizes, construct, current, is_final, ins,
    flag_of, m_active_store in *.

Ltac msimpl := munfold; simpl in *.

(** ** The calls as functions on worlds *)

Section Equations.

Context (Default : addr) (hooks : Hooks).

Lemma bind_eq {A B} (m : M A) (k : A → M B) w :
  (m ≫= k) w =
    match m w with
    | Ret a w' => k a w'
    | Terminated w' => Terminated w'
    | Undefined => Undefined
    end.
Proof. reflexivity. Qed.

Lemma instance_eq w :
  instance Default w = Ret (ins Default w) (construct Default w).
Proof.
  unfold instance, ins, construct. rewrite bind_eq. unfold gets.
  destruct (registry w) as [r|]; reflexivity.
Qed.

Lemma m_isFinal_load_eq w :
  m_isFinal_load Default w = Ret (is_final Default w) (construct Default w).
Proof. unfold m_isFinal_load. by rewrite bind_eq, instance_eq. Qed.

Lemma getCurrent_eq w :
  getCurrent Default w =
    Ret (current Default w)
        (with_currentLoads (S (currentLoads w)) (construct Default w)).
Proof.
  unfold getCurrent, m_current_load. rewrite bind_eq, instance_eq.
  unfold construct. by destruct (registry w).
Qed.

Lemma m_current_exchange_eq p w :
  m_current_exchange Default p w =
    Ret (current Default w)
        (with_installed (p :: installed (construct Default w))
           (with_registry (Some (mkRegistry (Some p) (is_final Default w)))
              (construct Default w))).
Proof. unfold m_current_exchange. by rewrite bind_eq, instance_eq. Qed.

Lemma setHandler_open h prev w :
  is_final Default w = false →
  current Default w = Some prev →
  setHandler Default hooks h w = Ret (Some prev) (installs Default h prev w).
Proof.
  destruct w as [fl [[c f]|] lh hc n inst]; msimpl; intros Hf Hc; simplify_eq;
    simpl; repeat case_decide; simplify_eq; reflexivity.
Qed.

Lemma setHandler_final h cur w :
  is_final Default w = true →
  current Default w = Some cur →
  setHandler Default hooks h w =
    match onSetAfterFinalize cur h with
    | HookReturns => Ret None (rejects Default cur h w)
    | HookTerminates => Terminated (rejects Default cur h w)
    end.
Proof.
  destruct w as [fl [[c f]|] lh hc n inst]; msimpl; intros Hf Hc; simplify_eq;
    simpl; destruct (onSetAfterFinalize cur h); reflexivity.
Qed.

Lemma finalize_eq w : finalize Default w = Ret () (finalizes Default w).
Proof. destruct w as [fl [[c f]|] lh hc n inst]; reflexivity. Qed.

Lemma get_cached_active t a w :
  localHandler w !! t = Some (Some a) →
  flag_of w a = true →
  get Default t w = Ret a w.
Proof.
  destruct w as [fl r lh hc n inst]; msimpl. intros -> Hfl; simpl.
  rewrite Hfl. reflexivity.
Qed.

Lemma get_cached_inactive t a c w :
  localHandler w !! t = Some (Some a) →
  flag_of w a = false →
  current Default w = Some c →
  get Default t w = Ret c (caches Default t c w).
Proof.
  destruct w as [fl [[c' f]|] lh hc n inst]; msimpl; intros -> Hfl Hc;
    simplify_eq; simpl; rewrite Hfl; reflexivity.
Qed.

Lemma get_first t c w :
  localHandler w !! t = None →
  current Default w = Some c →
  get Default t w =
    Ret c (if flag_of w c then caches Default t c w
           else caches Default t c (caches Default t c w)).
Proof.
  destruct w as [fl [[c' f]|] lh hc n inst]; msimpl; intros -> Hc;
    simplify_eq; simpl; destruct (default Activatable_initial (fl !! c));
    reflexivity.
Qed.

End Equations.

(** ** Well-formed worlds *)

Section Invariants.

Context (Default : addr) (hooks : Hooks).

Lemma registry_construct w : registry (construct Default w) = Some (ins Default w).
Proof. unfold construct, ins. destruct (registry w) eqn:E; simpl; congruence. Qed.

Lemma localHandler_construct w :
  localHandler (construct Default w) = localHandler w.
Proof. unfold construct. by destruct (registry w). Qed.

Lemma flags_construct w : flags (construct Default w) = flags w.
Proof. unfold construct. by destruct (registry w). Qed.

Lemma wf_process_start : wf process_start.
Proof. split; [intros r | intros t p]; simpl; [done | by rewrite lookup_empty]. Qed.

Lemma wf_current w : wf w → ∃ c, current Default w = Some c.
Proof.
  intros [Hr _]. unfold current, ins.
  destruct (registry w) as [r|] eqn:E; simpl; [|eauto].
  destruct (Hr r eq_refl) as (c & -> & _). eauto.
Qed.

Lemma wf_construct w : wf w → wf (construct Default w).
Proof.
  intros Hwf. unfold construct. destruct (registry w) as [r|] eqn:E; [done|].
  destruct Hwf as [Hr Hl]. split; simpl.
  - intros r [= <-]. exists Default. split; [done | apply list_elem_of_here].
  - intros t p Ht. destruct (Hl t p Ht) as [[] _]. congruence.
Qed.

Lemma wf_installs h prev w : wf w → wf (installs Default h prev w).
Proof.
  intros Hwf. apply wf_construct in Hwf. destruct Hwf as [Hr Hl].
  assert (wf (with_installed (h :: installed (construct Default w))
                (with_registry (Some (mkRegistry (Some h) false))
                   (m_active_store h true (construct Default w))))) as Hw.
  { split; simpl.
    - intros r [= <-]. exists h. split; [done | apply list_elem_of_here].
    - intros t p Ht. destruct (Hl t p Ht) as [_ (a & -> & Ha)].
      split; [eauto|]. exists a. split; [done | by apply list_elem_of_further]. }
  unfold installs. simpl. case_decide; [exact Hw|].
  destruct Hw as [Hr' Hl']. split; simpl; [exact Hr' | exact Hl'].
Qed.

Lemma wf_rejects cur h w : wf w → wf (rejects Default cur h w).
Proof. intros Hwf. apply wf_construct in Hwf. exact Hwf. Qed.

Lemma current_installed w c :
  wf w → current Default w = Some c → c ∈ installed (construct Default w).
Proof.
  intros [Hr _]. unfold current, ins, construct.
  destruct (registry w) as [r|] eqn:E; simpl.
  - intros Hc. destruct (Hr r eq_refl) as (c' & Hc' & Hin). congruence.
  - intros [= <-]. apply list_elem_of_here.
Qed.

Lemma wf_finalizes w : wf w → wf (finalizes Default w).
Proof.
  intros Hwf. destruct (wf_current w Hwf) as [c Hc].
  pose proof (current_installed w c Hwf Hc) as Hin.
  apply wf_construct in Hwf. destruct Hwf as [Hr Hl].
  unfold finalizes. rewrite Hc. split; simpl.
  - intros r [= <-]. eauto.
  - intros t p Ht. destruct (Hl t p Ht) as [_ Hp]. eauto.
Qed.

Lemma wf_caches t c w :
  wf w → current Default w = Some c → wf (caches Default t c w).
Proof.
  intros Hwf Hc. pose proof (current_installed w c Hwf Hc) as Hin.
  apply wf_construct in Hwf. destruct Hwf as [Hr Hl].
  split; simpl.
  - exact Hr.
  - intros t' p. destruct (decide (t = t')) as [<-|Hne].
    + rewrite lookup_insert_eq. intros [= <-]. split; [|eauto].
      rewrite registry_construct. eauto.
    + rewrite lookup_insert_ne by done. intros Ht. apply (Hl t' p).
      by rewrite localHandler_construct.
Qed.

End Invariants.

(** ** set, reset and finalize *)

Section SetResetFinalize.

Context (Default : addr) (hooks : Hooks).

Lemma ins_construct w : ins Default (construct Default w) = ins Default w.
Proof. unfold ins at 1. by rewrite registry_construct. Qed.

Lemma installs_flags h prev w :
  flags (installs Default h prev w) =
    if decide (h = prev) then <[h := true]> (flags w)
    else <[prev := false]> (<[h := true]> (flags w)).
Proof.
  unfold installs. simpl. case_decide; simpl; by rewrite flags_construct.
Qed.

Lemma installs_registry h prev w :
  registry (installs Default h prev w) = Some (mkRegistry (Some h) false).
Proof. unfold installs. simpl. by case_decide. Qed.

Lemma installs_installed h prev w :
  installed (installs Default h prev w) = h :: installed (construct Default w).
Proof. unfold installs. simpl. by case_decide. Qed.

Lemma installs_localHandler h prev w :
  localHandler (installs Default h prev w) = localHandler w.
Proof.
  unfold installs. simpl. case_decide; simpl; by rewrite localHandler_construct.
Qed.

Lemma installs_hookCalls h prev w :
  hookCalls (installs Default h prev w) = hookCalls w.
Proof.
  unfold installs, construct. case_decide; destruct (registry w); reflexivity.
Qed.

Lemma flag_of_insert_eq w w' a b :
  flags w' = <[a := b]> (flags w) → flag_of w' a = b.
Proof. unfold flag_of. intros ->. by rewrite lookup_insert_eq. Qed.

Lemma flag_of_insert_ne w w' a a' b :
  flags w' = <[a := b]> (flags w) → a ≠ a' → flag_of w' a' = flag_of w a'.
Proof. unfold flag_of. intros -> Hne. by rewrite lookup_insert_ne. Qed.

Lemma installs_flag_new h prev w : flag_of (installs Default h prev w) h = true.
Proof.
  unfold flag_of. rewrite installs_flags. case_decide.
  - by rewrite lookup_insert_eq.
  - rewrite lookup_insert_ne by done. by rewrite lookup_insert_eq.
Qed.

Lemma installs_flag_prev h prev w :
  prev ≠ h → flag_of (installs Default h prev w) prev = false.
Proof.
  intros Hne. unfold flag_of. rewrite installs_flags.
  rewrite decide_False by done. by rewrite lookup_insert_eq.
Qed.

Lemma installs_flag_other h prev w a :
  a ≠ h → a ≠ prev → flag_of (installs Default h prev w) a = flag_of w a.
Proof.
  intros Hh Hp. unfold flag_of. rewrite installs_flags.
  case_decide; by rewrite !lookup_insert_ne by done.
Qed.

(** C1: while the registry is not finalized, [set(h)] returns the handler
    that was current, which is not null; afterwards [h] is current and
    active, the previous handler is inactive exactly when it is another
    object than [h], and no other flag changed.  The flags after the call
    are written out: only [h] is written when the previous handler is [h]
    itself, and [h] then the previous handler otherwise. *)
Theorem set_installs h w :
  wf w →
  is_final Default w = false →
  ∃ prev w',
    current Default w = Some prev ∧
    set Default hooks h w = Ret (Some prev) w' ∧
    current Default w' = Some h ∧
    is_final Default w' = false ∧
    installed w' = h :: installed (construct Default w) ∧
    flags w' = (if decide (h = prev) then <[h := true]> (flags w)
                else <[prev := false]> (<[h := true]> (flags w))) ∧
    flag_of w' h = true ∧
    (prev ≠ h → flag_of w' prev = false) ∧
    (prev = h → flag_of w' prev = true) ∧
    (∀ a, a ≠ h → a ≠ prev → flag_of w' a = flag_of w a).
Proof.
  intros Hwf Hopen. destruct (wf_current Default w Hwf) as [prev Hprev].
  exists prev, (installs Default h prev w).
  split; [exact Hprev|].
  split; [by apply setHandler_open|].
  unfold current, is_final, ins. rewrite installs_registry. simpl.
  split; [done|]. split; [done|].
  split; [apply installs_installed|].
  split; [apply installs_flags|].
  split; [apply installs_flag_new|].
  split; [apply installs_flag_prev|].
  split; [intros ->; apply installs_flag_new|].
  intros a. apply installs_flag_other.
Qed.

Lemma is_final_constructed w : is_final Default w = true → construct Default w = w.
Proof.
  unfold is_final, ins, construct. by destruct (registry w).
Qed.

Lemma rejects_registry cur h w :
  is_final Default w = true → registry (rejects Default cur h w) = registry w.
Proof. intros Hf. unfold rejects. simpl. by rewrite is_final_constructed. Qed.

Lemma rejects_flags cur h w : flags (rejects Default cur h w) = flags w.
Proof. unfold rejects. simpl. apply flags_construct. Qed.

Lemma rejects_localHandler cur h w :
  localHandler (rejects Default cur h w) = localHandler w.
Proof. unfold rejects. simpl. apply localHandler_construct. Qed.

(** C9: a rejected [setHandler] ends in a world with the flags and the
    registry it started from, whether the hook returns or not; the flag of
    the attempted handler in particular is as it was. *)
Theorem rejected_set_changes_nothing h w :
  wf w →
  is_final Default w = true →
  ∃ w',
    world_of (setHandler Default hooks h w) = Some w' ∧
    flags w' = flags w ∧
    registry w' = registry w ∧
    flag_of w' h = flag_of w h ∧
    installed w' = installed w.
Proof.
  intros Hwf Hfin. destruct (wf_current Default w Hwf) as [cur Hcur].
  exists (rejects Default cur h w). split.
  - rewrite (setHandler_final Default hooks h cur w Hfin Hcur).
    by destruct (onSetAfterFinalize cur h).
  - split; [apply rejects_flags|]. split; [by apply rejects_registry|].
    split.
    + unfold flag_of. by rewrite rejects_flags.
    + unfold rejects. simpl. by rewrite is_final_constructed.
Qed.

End SetResetFinalize.

(** ** get *)

Section Get.

Context (Default : addr) (hooks : Hooks).

Lemma wf_localHandler t p w :
  wf w → localHandler w !! t = Some p → ∃ a, p = Some a ∧ a ∈ installed w.
Proof. intros [_ Hl] Ht. by destruct (Hl t p Ht). Qed.

Lemma caches_localHandler t c w :
  localHandler (caches Default t c w) !! t = Some (Some c).
Proof. unfold caches. simpl. by rewrite lookup_insert_eq. Qed.

Lemma caches_localHandler_ne t t' c w :
  t ≠ t' → localHandler (caches Default t c w) !! t' = localHandler w !! t'.
Proof.
  intros Hne. unfold caches. simpl. by rewrite lookup_insert_ne.
Qed.

Lemma caches_flags t c w : flags (caches Default t c w) = flags w.
Proof. unfold caches. simpl. apply flags_construct. Qed.

Lemma caches_registry t c w :
  registry (caches Default t c w) = Some (ins Default w).
Proof. unfold caches. simpl. apply registry_construct. Qed.

Lemma caches_current t c w :
  current Default (caches Default t c w) = current Default w.
Proof. unfold current, ins at 1. by rewrite caches_registry. Qed.

Lemma caches_is_final t c w :
  is_final Default (caches Default t c w) = is_final Default w.
Proof. unfold is_final, ins at 1. by rewrite caches_registry. Qed.

Lemma caches_construct t c w :
  construct Default (caches Default t c w) = caches Default t c w.
Proof. unfold construct at 1. by rewrite caches_registry. Qed.

Lemma caches_installed t c w :
  installed (caches Default t c w) = installed (construct Default w).
Proof. reflexivity. Qed.

Lemma caches_currentLoads t c w :
  currentLoads (caches Default t c w) = S (currentLoads w).
Proof. unfold caches, construct. simpl. by destruct (registry w). Qed.

(** What [get] returns and the world it leaves, by the three ways through
    its body. *)
Lemma get_world t w :
  wf w →
  ∃ c a w',
    current Default w = Some c ∧
    get Default t w = Ret a w' ∧
    wf w' ∧
    ((localHandler w !! t = Some (Some a) ∧ flag_of w a = true ∧ w' = w) ∨
     (∃ b, localHandler w !! t = Some (Some b) ∧ flag_of w b = false ∧
           a = c ∧ w' = caches Default t c w) ∨
     (localHandler w !! t = None ∧ a = c ∧
      w' = if flag_of w c then caches Default t c w
           else caches Default t c (caches Default t c w))).
Proof.
  intros Hwf. destruct (wf_current Default w Hwf) as [c Hc].
  pose proof (wf_caches Default t c w Hwf Hc) as Hwf1.
  exists c. destruct (localHandler w !! t) as [p|] eqn:Ht.
  - destruct (wf_localHandler t p w Hwf Ht) as (a & -> & Ha).
    destruct (flag_of w a) eqn:Hfl.
    + exists a, w. rewrite (get_cached_active Default t a w Ht Hfl). eauto 10.
    + exists c, (caches Default t c w).
      rewrite (get_cached_inactive Default t a c w Ht Hfl Hc).
      split; [done|]. split; [done|]. split; [done|]. right; left. eauto.
  - exists c. rewrite (get_first Default t c w Ht Hc). eexists.
    split; [done|]. split; [done|]. split; [|by right; right].
    destruct (flag_of w c); [done|].
    apply wf_caches; [done|]. by rewrite caches_current.
Qed.

(** C3: [get()] on thread [t] of a well-formed world returns a handler, and
    that handler was stored to [m_current] at some point.  On the thread's
    first call the thread-local is filled from [m_current]; when the cached
    handler is inactive, [m_current] is loaded exactly once more and what was
    loaded is cached and returned, whatever its own flag says; when the
    cached handler is active it is returned and the world is left as it
    was, [m_current] not being loaded. *)
Theorem get_returns_cached_or_current t w :
  wf w →
  ∃ c a w',
    current Default w = Some c ∧
    get Default t w = Ret a w' ∧
    wf w' ∧
    a ∈ installed w' ∧
    localHandler w' !! t = Some (Some a) ∧
    match localHandler w !! t with
    | None =>
        a = c ∧
        currentLoads w' = currentLoads w + (if flag_of w c then 1 else 2)
    | Some cached =>
        ∃ b, cached = Some b ∧
             if flag_of w b
             then a = b ∧ w' = w
             else a = c ∧ currentLoads w' = currentLoads w + 1
    end.
Proof.
  intros Hwf.
  destruct (get_world t w Hwf) as (c & a & w' & Hc & Hget & Hwf' & Hcase).
  pose proof (current_installed Default w c Hwf Hc) as Hin.
  exists c, a, w'. split; [done|]. split; [done|]. split; [done|].
  destruct Hcase as [(Ht & Hfl & ->)|[(b & Ht & Hfl & -> & ->)|(Ht & -> & ->)]];
    rewrite Ht.
  - destruct (wf_localHandler t _ w Hwf Ht) as (a' & [= <-] & Ha).
    split; [done|]. split; [done|]. exists a. by rewrite Hfl.
  - rewrite caches_localHandler, caches_currentLoads.
    split; [done|]. split; [done|]. exists b. rewrite Hfl.
    split; [done|]. split; [done|]. lia.
  - destruct (flag_of w c).
    + rewrite caches_localHandler, caches_currentLoads.
      split; [done|]. split; [done|]. split; [done|]. lia.
    + rewrite caches_localHandler, !caches_currentLoads, !caches_installed.
      rewrite caches_construct.
      split; [done|]. split; [done|]. split; [done|]. lia.
Qed.

End Get.

(** ** The invariant of sequential use *)

Section Sequential.

Context (Default : addr) (hooks : Hooks).

Lemma one_active_process_start : one_active Default process_start.
Proof.
  exists Default. split; [done|]. split; [done|].
  intros a Ha. by apply elem_of_nil in Ha.
Qed.

Lemma installed_construct w a c :
  current Default w = Some c →
  a ∈ installed (construct Default w) → a = c ∨ a ∈ installed w.
Proof.
  unfold current, ins, construct. destruct (registry w); simpl; [by right|].
  intros [= <-] [->|Ha]%elem_of_cons; [by left | by right].
Qed.

(** Worlds that differ in ghost counters and thread-locals only. *)
Lemma one_active_ext w w' :
  flags w' = flags w →
  current Default w' = current Default w →
  installed w' = installed w ∨ installed w' = installed (construct Default w) →
  one_active Default w → one_active Default w'.
Proof.
  intros Hfl Hcur Hinst (c & Hc & Hact & Hothers).
  exists c. unfold flag_of in *. rewrite Hfl, Hcur.
  split; [done|]. split; [done|].
  intros a Ha Hne. apply Hothers; [|done].
  destruct Hinst as [Hi|Hi]; rewrite Hi in Ha; [done|].
  by destruct (installed_construct w a c Hc Ha).
Qed.

Lemma one_active_construct w :
  one_active Default w → one_active Default (construct Default w).
Proof.
  apply one_active_ext; [apply flags_construct | | by right].
  unfold current. by rewrite ins_construct.
Qed.

Lemma one_active_caches t c w :
  one_active Default w → one_active Default (caches Default t c w).
Proof.
  apply one_active_ext; [apply caches_flags | apply caches_current | by right].
Qed.

Lemma one_active_rejects cur h w :
  one_active Default w → one_active Default (rejects Default cur h w).
Proof.
  apply one_active_ext; [apply rejects_flags | | by right].
  unfold current, rejects, ins. simpl. by rewrite registry_construct.
Qed.

Lemma one_active_finalizes w :
  one_active Default w → one_active Default (finalizes Default w).
Proof.
  apply one_active_ext; [apply flags_construct | done | by right].
Qed.

Lemma one_active_installs h prev w :
  current Default w = Some prev →
  one_active Default w → one_active Default (installs Default h prev w).
Proof.
  intros Hprev (c & Hc & Hact & Hothers).
  assert (prev = c) as -> by congruence.
  exists h. unfold current, ins. rewrite installs_registry. simpl.
  split; [done|]. split; [apply installs_flag_new|].
  intros a. rewrite installs_installed.
  intros [->|Ha]%elem_of_cons Hne; [done|].
  destruct (decide (a = c)) as [->|Hac]; [by apply installs_flag_prev|].
  rewrite installs_flag_other by done.
  destruct (installed_construct w a c Hc Ha); [done|]. by apply Hothers.
Qed.

(** Every call is defined on a well-formed world and leaves one; the
    world it leaves is one of the five the lemma lists. *)
Lemma do_call_world t c w :
  wf w →
  ∃ w', world_of (do_call Default hooks t c w) = Some w' ∧ wf w' ∧
    (w' = w ∨
     (∃ a, current Default w = Some a ∧
        (w' = caches Default t a w ∨
         w' = caches Default t a (caches Default t a w))) ∨
     (∃ h prev, is_final Default w = false ∧ current Default w = Some prev ∧
        w' = installs Default h prev w) ∨
     (∃ h cur, is_final Default w = true ∧ current Default w = Some cur ∧
        w' = rejects Default cur h w) ∨
     w' = finalizes Default w).
Proof.
  intros Hwf. destruct (wf_current Default w Hwf) as [cur Hcur].
  assert (∀ h, ∃ w', world_of (do_call Default hooks t (CallSet h) w) = Some w' ∧ wf w' ∧
     ((∃ h prev, is_final Default w = false ∧ current Default w = Some prev ∧
        w' = installs Default h prev w) ∨
     (∃ h cur, is_final Default w = true ∧ current Default w = Some cur ∧
        w' = rejects Default cur h w))) as Hset.
  { intros h. unfold do_call, set. rewrite (bind_eq (setHandler _ _ _)).
    destruct (is_final Default w) eqn:Hfin.
    - rewrite (setHandler_final Default hooks h cur w Hfin Hcur).
      exists (rejects Default cur h w).
      split; [by destruct (onSetAfterFinalize cur h)|].
      split; [by apply wf_rejects|]. right. eauto.
    - rewrite (setHandler_open Default hooks h cur w Hfin Hcur).
      exists (installs Default h cur w).
      split; [done|]. split; [by apply wf_installs|]. left. eauto. }
  destruct c as [|h| |].
  - destruct (get_world Default t w Hwf)
      as (c & a & w' & Hc & Hget & Hwf' & Hcase).
    exists w'. unfold do_call. rewrite bind_eq, Hget. simpl.
    split; [done|]. split; [done|].
    destruct Hcase as [(_ & _ & ->)|[(b & _ & _ & _ & ->)|(_ & _ & ->)]].
    + by left.
    + right; left. eauto.
    + right; left. exists c. split; [done|].
      destruct (flag_of w c); [by left | by right].
  - destruct (Hset h) as (w' & Hw & Hwf' & Hcase). exists w'.
    split; [done|]. split; [done|]. destruct Hcase; eauto.
  - destruct (Hset Default) as (w' & Hw & Hwf' & Hcase). exists w'.
    split; [exact Hw|]. split; [done|]. destruct Hcase; eauto.
  - exists (finalizes Default w). unfold do_call.
    rewrite bind_eq, finalize_eq. simpl.
    split; [done|]. split; [by apply wf_finalizes|]. eauto 6.
Qed.

(** C4: when the calls run one after the other, the handler in
    [m_current] is active and every other handler that was ever installed
    is inactive.  This holds when the process starts, after the constructor
    ran, and after every call of [get], [set], [reset] and [finalize] made in
    a world in which it held; each such call is defined. *)
Theorem one_active_preserved :
  one_active Default process_start ∧
  (∀ w r w', one_active Default w → instance Default w = Ret r w' →
     one_active Default w') ∧
  (∀ t c w, wf w → one_active Default w →
     ∃ w', world_of (do_call Default hooks t c w) = Some w' ∧
           wf w' ∧ one_active Default w').
Proof.
  split; [apply one_active_process_start|]. split.
  - intros w r w' Hone. rewrite instance_eq. intros [= _ <-].
    by apply one_active_construct.
  - intros t c w Hwf Hone.
    destruct (do_call_world t c w Hwf) as (w' & Hw & Hwf' & Hcase).
    exists w'. split; [done|]. split; [done|].
    destruct Hcase as [->|[(a & Ha & [->| ->])|[(h & prev & Hf & Hp & ->)|
                      [(h & cur & Hf & Hp & ->)| ->]]]].
    + done.
    + by apply one_active_caches.
    + by do 2 apply one_active_caches.
    + by apply one_active_installs.
    + by apply one_active_rejects.
    + by apply one_active_finalizes.
Qed.

End Sequential.

(** ** reset, finalize and the fresh registry *)

Section ResetFinalizeFresh.

Context (Default : addr) (hooks : Hooks).

(** One call of [get] in a world where one handler is active returns the
    current handler. *)
Lemma get_one_active t w :
  wf w → one_active Default w →
  ∃ c w', current Default w = Some c ∧ get Default t w = Ret c w'.
Proof.
  intros Hwf (c & Hc & Hact & Hothers).
  destruct (get_world Default t w Hwf)
    as (c' & a & w' & Hc' & Hget & _ & Hcase).
  assert (c' = c) as -> by congruence.
  exists c, w'. split; [done|]. rewrite Hget. f_equal.
  destruct Hcase as [(Ht & Hfl & _)|[(b & _ & _ & -> & _)|(_ & -> & _)]];
    [|done..].
  destruct (wf_localHandler t _ w Hwf Ht) as (a' & [= <-] & Ha).
  destruct (decide (a = c)) as [|Hne]; [done|].
  rewrite (Hothers a Ha Hne) in Hfl. done.
Qed.

(** C5: [reset()] is [set] called with the default handler, in every
    world.  While the registry is open it returns the previous handler and
    leaves the default current and active and the previous handler, when it
    is another object, inactive; when one handler was active before, [get]
    on every thread then returns the default.  After [finalize()] it is
    rejected as [set] is: nothing changes but the record of the hook call. *)
Theorem reset_is_set_default w :
  reset Default hooks w = reset_as_specified Default hooks w ∧
  (wf w → is_final Default w = false →
   ∃ prev w',
     current Default w = Some prev ∧
     reset Default hooks w = Ret (Some prev) w' ∧
     current Default w' = Some Default ∧
     flag_of w' Default = true ∧
     (prev ≠ Default → flag_of w' prev = false) ∧
     (one_active Default w →
      ∀ t, value_of (get Default t w') = Some Default)) ∧
  (wf w → is_final Default w = true →
   ∃ cur w',
     current Default w = Some cur ∧
     reset Default hooks w =
       match onSetAfterFinalize cur Default with
       | HookReturns => Ret None w'
       | HookTerminates => Terminated w'
       end ∧
     registry w' = registry w ∧
     flags w' = flags w ∧
     hookCalls w' = (cur, Default) :: hookCalls w).
Proof.
  split; [reflexivity|]. split.
  - intros Hwf Hopen. destruct (wf_current Default w Hwf) as [prev Hprev].
    exists prev, (installs Default Default prev w).
    assert (current Default (installs Default Default prev w) = Some Default)
      as Hcur by (unfold current, ins; by rewrite installs_registry).
    split; [done|].
    split; [by apply (setHandler_open Default hooks Default prev w)|].
    split; [done|]. split; [apply installs_flag_new|].
    split; [apply installs_flag_prev|].
    intros Hone t.
    destruct (get_one_active t (installs Default Default prev w))
      as (c & w'' & Hc & ->).
    + by apply wf_installs.
    + by apply one_active_installs.
    + simpl. congruence.
  - intros Hwf Hfin. destruct (wf_current Default w Hwf) as [cur Hcur].
    exists cur, (rejects Default cur Default w).
    split; [done|].
    split; [by apply (setHandler_final Default hooks Default cur w)|].
    split; [by apply rejects_registry|].
    split; [apply rejects_flags|]. done.
Qed.

Lemma finalizes_flags w : flags (finalizes Default w) = flags w.
Proof. apply flags_construct. Qed.

Lemma finalizes_localHandler w :
  localHandler (finalizes Default w) = localHandler w.
Proof. apply localHandler_construct. Qed.

Lemma finalizes_is_final w : is_final Default (finalizes Default w) = true.
Proof. reflexivity. Qed.

Lemma finalizes_current w :
  current Default (finalizes Default w) = current Default w.
Proof. reflexivity. Qed.

Lemma finalizes_idem w :
  finalizes Default (finalizes Default w) = finalizes Default w.
Proof. reflexivity. Qed.

(** After a call the registry is final when it was before. *)
Lemma is_final_monotone t c w w' :
  is_final Default w = true →
  world_of (do_call Default hooks t c w) = Some w' →
  is_final Default w' = true.
Proof.
  destruct w as [fl [[cur f]|] lh hc n inst]; [|done].
  unfold is_final, ins. simpl. intros ->.
  destruct c as [|h| |]; msimpl.
  - destruct (lh !! t) as [[a|]|]; simpl; [| done |].
    + destruct (default Activatable_initial (fl !! a)); simpl.
      * intros ?; by simplify_eq.
      * destruct cur; simpl; [|done]. intros ?; by simplify_eq.
    + destruct cur as [a|]; simpl; [|done].
      destruct (default Activatable_initial (fl !! a)); simpl;
        intros ?; by simplify_eq.
  - destruct cur as [a|]; simpl; [|done].
    destruct (onSetAfterFinalize a h); simpl; intros ?; by simplify_eq.
  - destruct cur as [a|]; simpl; [|done].
    destruct (onSetAfterFinalize a Default); simpl; intros ?; by simplify_eq.
  - intros ?; by simplify_eq.
Qed.

(** C6: [finalize()] always returns, and leaves the registry final with
    its current handler, every flag and the record of hook calls as they
    were; a second [finalize()] changes nothing at all; and no call makes a
    final registry open again. *)
Theorem finalize_monotonic_idempotent w :
  ∃ w',
    finalize Default w = Ret () w' ∧
    is_final Default w' = true ∧
    current Default w' = current Default w ∧
    flags w' = flags w ∧
    localHandler w' = localHandler w ∧
    hookCalls w' = hookCalls w ∧
    finalize Default w' = Ret () w' ∧
    ∀ t c w1 w2,
      is_final Default w1 = true →
      world_of (do_call Default hooks t c w1) = Some w2 →
      is_final Default w2 = true.
Proof.
  exists (finalizes Default w).
  split; [apply finalize_eq|]. split; [done|]. split; [done|].
  split; [apply flags_construct|].
  split; [apply localHandler_construct|].
  split; [unfold finalizes, construct; by destruct (registry w)|].
  split; [by rewrite finalize_eq|].
  apply is_final_monotone.
Qed.

Lemma pristine_process_start : pristine Default process_start.
Proof.
  split; [apply wf_process_start|]. split; [done|]. split; [done|].
  intros t p. simpl. by rewrite lookup_empty.
Qed.

Lemma pristine_caches t w : pristine Default w → pristine Default (caches Default t Default w).
Proof.
  intros (Hwf & Hfl & Hcur & Hl).
  split; [by apply wf_caches|].
  split; [by rewrite caches_flags|].
  split; [by rewrite caches_current|].
  intros t' p. destruct (decide (t = t')) as [<-|Hne].
  - rewrite caches_localHandler. by intros [= <-].
  - rewrite caches_localHandler_ne by done. apply Hl.
Qed.

Lemma pristine_finalizes w : pristine Default w → pristine Default (finalizes Default w).
Proof.
  intros (Hwf & Hfl & Hcur & Hl).
  split; [by apply wf_finalizes|].
  split; [by rewrite finalizes_flags|].
  split; [done|].
  intros t p. rewrite finalizes_localHandler. apply Hl.
Qed.

Lemma pristine_get t w :
  pristine Default w →
  ∃ w', get Default t w = Ret Default w' ∧ pristine Default w' ∧
        flag_of w' Default = true.
Proof.
  intros Hp. pose proof Hp as (Hwf & Hfl & Hcur & Hl).
  assert (∀ w0, pristine Default w0 → flag_of w0 Default = true) as Hact.
  { intros w0 (_ & Hfl0 & _). unfold flag_of. by rewrite Hfl0, lookup_empty. }
  destruct (localHandler w !! t) as [p|] eqn:Ht.
  - rewrite (Hl t p Ht) in Ht. exists w.
    rewrite (get_cached_active Default t Default w Ht (Hact w Hp)). eauto.
  - exists (caches Default t Default w).
    rewrite (get_first Default t Default w Ht Hcur), (Hact w Hp).
    split; [done|]. split; [by apply pristine_caches|].
    apply Hact. by apply pristine_caches.
Qed.

Lemma pristine_do_calls cs w :
  Forall (λ tc, no_install tc.2) cs →
  pristine Default w →
  ∃ vs w', do_calls Default hooks cs w = Ret vs w' ∧ pristine Default w'.
Proof.
  intros Hcs. revert w. induction Hcs as [|[t c] cs Hc _ IH]; intros w Hp.
  - exists [], w. done.
  - simpl in Hc. cbn [do_calls]. rewrite bind_eq.
    destruct c as [|h| |]; try done.
    + destruct (pristine_get t w Hp) as (w1 & Hget & Hp1 & _).
      unfold do_call. rewrite bind_eq, Hget. simpl.
      destruct (IH w1 Hp1) as (vs & w' & Hrun & Hp').
      exists (VRef Default :: vs), w'. rewrite bind_eq, Hrun. done.
    + unfold do_call. rewrite bind_eq, finalize_eq. simpl.
      destruct (IH _ (pristine_finalizes w Hp)) as (vs & w' & Hrun & Hp').
      exists (VVoid :: vs), w'. rewrite bind_eq, Hrun. done.
Qed.

(** C7: in a process in which [set] and [reset] were never called,
    whatever calls of [get] and [finalize] the threads made, [get()] on any
    thread returns the instance of the default handler, and that instance
    is active. *)
Theorem fresh_registry_get_default cs t :
  Forall (λ tc, no_install tc.2) cs →
  ∃ vs w w',
    do_calls Default hooks cs process_start = Ret vs w ∧
    get Default t w = Ret Default w' ∧
    flag_of w' Default = true.
Proof.
  intros Hcs.
  destruct (pristine_do_calls cs process_start Hcs pristine_process_start)
    as (vs & w & Hrun & Hp).
  destruct (pristine_get t w Hp) as (w' & Hget & _ & Hact).
  exists vs, w, w'. done.
Qed.

End ResetFinalizeFresh.

(** ** The lockout after finalize *)

Section FinalizeLockout.

Context (Default : addr) (hooks : Hooks).

Lemma bind_Ret_inv {A B} (m : M A) (k : A → M B) w b w' :
  (m ≫= k) w = Ret b w' → ∃ a w1, m w = Ret a w1 ∧ k a w1 = Ret b w'.
Proof.
  rewrite bind_eq. destruct (m w) as [a w1| |]; [|done..]. eauto.
Qed.

Lemma rejects_ins cur h w :
  ins Default (rejects Default cur h w) = ins Default w.
Proof. unfold rejects, ins. simpl. by rewrite registry_construct. Qed.

(** A call that returned, made when one handler was active, leaves one
    handler active; made on a final registry, it leaves the registry final
    and the current handler in place. *)
Lemma do_call_sequential t c w v w' :
  do_call Default hooks t c w = Ret v w' →
  wf w → one_active Default w →
  wf w' ∧ one_active Default w' ∧
  (is_final Default w = true →
   is_final Default w' = true ∧ current Default w' = current Default w).
Proof.
  intros Hcall Hwf Hone.
  destruct (do_call_world Default hooks t c w Hwf) as (w2 & Hw & Hwf' & Hcase).
  rewrite Hcall in Hw. injection Hw as <-. split; [done|].
  destruct Hcase
    as [->|[(a & Ha & [->| ->])|[(h & prev & Hopen & Hprev & ->)|
        [(h & cur & Hfin & Hcur & ->)| ->]]]].
  - done.
  - split; [by apply one_active_caches|]. intros Hfin.
    by rewrite caches_is_final, caches_current.
  - split; [by do 2 apply one_active_caches|]. intros Hfin.
    by rewrite !caches_is_final, !caches_current.
  - split; [by apply one_active_installs|]. congruence.
  - split; [by apply one_active_rejects|]. intros _.
    unfold is_final, current in *. by rewrite rejects_ins.
  - split; [by apply one_active_finalizes|]. done.
Qed.

Lemma do_calls_sequential cs w vs w' :
  do_calls Default hooks cs w = Ret vs w' →
  wf w → one_active Default w →
  wf w' ∧ one_active Default w' ∧
  (is_final Default w = true →
   is_final Default w' = true ∧ current Default w' = current Default w).
Proof.
  revert w vs. induction cs as [|[t c] cs IH]; intros w vs Hrun Hwf Hone.
  - injection Hrun as _ <-. done.
  - cbn [do_calls] in Hrun.
    apply bind_Ret_inv in Hrun as (v & w1 & Hcall & Hrun).
    apply bind_Ret_inv in Hrun as (vs' & w2 & Hrun & Hret).
    injection Hret as _ <-.
    destruct (do_call_sequential t c w v w1 Hcall Hwf Hone)
      as (Hwf1 & Hone1 & Hfin1).
    destruct (IH w1 vs' Hrun Hwf1 Hone1) as (Hwf2 & Hone2 & Hfin2).
    split; [done|]. split; [done|]. intros Hfin.
    destruct (Hfin1 Hfin) as [Hf1 Hc1]. destruct (Hfin2 Hf1) as [Hf2 Hc2].
    split; [done | congruence].
Qed.

(** C2 (as amended): the calls run one after the other.  [finalize()] is
    called in the world [w0], which the calls [pre] made since the process
    started have left, and [c] is the handler current at that time; the
    calls [post] follow it and return, whatever they are.  The next call
    of [set] (and of [reset], which is [set] of the default handler) then
    does not exchange the current handler: the registry and every flag are
    as before the call and [c] is still current; the hook is called
    exactly once, with [c] and the attempted handler; the call returns null
    when the hook returns, and when the hook ends the process, as the
    default hook does, the call does not return.  [get] on every thread
    returns [c], before the call and after it. *)
Theorem set_after_finalize pre vs0 w0 tf post vs1 w h :
  do_calls Default hooks pre process_start = Ret vs0 w0 →
  do_calls Default hooks ((tf, CallFinalize) :: post) w0 = Ret vs1 w →
  ∃ c w',
    current Default w0 = Some c ∧
    is_final Default w = true ∧
    current Default w = Some c ∧
    set Default hooks h w =
      match onSetAfterFinalize c h with
      | HookReturns => Ret None w'
      | HookTerminates => Terminated w'
      end ∧
    reset Default hooks = set Default hooks Default ∧
    registry w' = registry w ∧
    flags w' = flags w ∧
    current Default w' = Some c ∧
    hookCalls w' = (c, h) :: hookCalls w ∧
    ∀ t, (∃ w2, get Default t w = Ret c w2) ∧
         (∃ w2, get Default t w' = Ret c w2).
Proof.
  intros Hpre Hpost.
  destruct (do_calls_sequential pre process_start vs0 w0 Hpre
              wf_process_start (one_active_process_start Default))
    as (Hwf0 & Hone0 & _).
  destruct (wf_current Default w0 Hwf0) as [c Hc0].
  cbn [do_calls] in Hpost.
  apply bind_Ret_inv in Hpost as (v & w1 & Hfinalize & Hpost).
  apply bind_Ret_inv in Hpost as (vs' & w2 & Hpost & Hret).
  injection Hret as _ ->.
  destruct (do_call_sequential tf CallFinalize w0 v w1 Hfinalize Hwf0 Hone0)
    as (Hwf1 & Hone1 & _).
  assert (is_final Default w1 = true ∧ current Default w1 = Some c)
    as [Hfin1 Hc1].
  { unfold do_call in Hfinalize. rewrite bind_eq, finalize_eq in Hfinalize.
    injection Hfinalize as _ <-. done. }
  destruct (do_calls_sequential post w1 vs' w Hpost Hwf1 Hone1)
    as (Hwf & Hone & Hkeep).
  destruct (Hkeep Hfin1) as [Hfin Hc]. rewrite Hc1 in Hc.
  exists c, (rejects Default c h w).
  split; [done|]. split; [done|]. split; [done|].
  split; [by apply setHandler_final|].
  split; [reflexivity|].
  split; [by apply rejects_registry|].
  split; [apply rejects_flags|].
  split; [unfold current; by rewrite rejects_ins|].
  split; [reflexivity|].
  intros t. split.
  - destruct (get_one_active Default t w Hwf Hone) as (c' & w2 & Hc' & Hget).
    exists w2. congruence.
  - destruct (get_one_active Default t (rejects Default c h w))
      as (c' & w2 & Hc' & Hget).
    + by apply wf_rejects.
    + by apply one_active_rejects.
    + exists w2. unfold current in Hc'. rewrite rejects_ins in Hc'.
      unfold current in Hc. congruence.
Qed.

End FinalizeLockout.

(** ** The queue error *)

(** C10: [ChunkQueueError] has the two values [SEMAPHORE_ALREADY_SET] and
    [QUEUE_OVERFLOW], which differ, and no other. *)
Theorem ChunkQueueError_two_values :
  (∀ e : popo.ChunkQueueError,
     e = popo.SEMAPHORE_ALREADY_SET ∨ e = popo.QUEUE_OVERFLOW) ∧
  popo.SEMAPHORE_ALREADY_SET ≠ popo.QUEUE_OVERFLOW ∧
  (∀ e, e ∈ popo.ChunkQueueError_all) ∧
  NoDup popo.ChunkQueueError_all ∧
  length popo.ChunkQueueError_all = 2 ∧
  popo.ChunkQueueError_value <$> popo.ChunkQueueError_all = [0; 1]%Z.
Proof.
  split; [intros []; auto|]. split; [done|].
  split.
  { intros []; [apply list_elem_of_here|].
    apply list_elem_of_further, list_elem_of_here. }
  split; [|done].
  unfold popo.ChunkQueueError_all. apply NoDup_cons. split.
  - intros [=]%list_elem_of_singleton.
  - apply NoDup_singleton.
Qed.

(** ** The steps of a call, run alone *)

Section Solo.
Context (Default : addr) (hooks : Hooks).

Lemma step_singleton t th w :
  step Default hooks t {[t := th]} w =
    match thread_step Default hooks t th w with
    | Ret th' w' => Ret {[t := th']} w'
    | Terminated w' => Terminated w'
    | Undefined => Undefined
    end.
Proof.
  unfold step. rewrite lookup_singleton_eq, !bind_eq.
  destruct (thread_step Default hooks t th w); [|reflexivity..].
  by rewrite insert_singleton_eq.
Qed.

Lemma run_cons t s pool w :
  run Default hooks (t :: s) pool w =
    match step Default hooks t pool w with
    | Ret pool' w' => run Default hooks s pool' w'
    | Terminated w' => Terminated w'
    | Undefined => Undefined
    end.
Proof. reflexivity. Qed.

#[local] Arguments run : simpl never.
#[local] Arguments step : simpl never.

Ltac solo_step :=
  rewrite run_cons, step_singleton; unfold thread_step; msimpl.

(** The two presentations of the calls agree: six steps of a thread that
    runs alone and has the one call [c] to make do what [do_call] does, in
    every world and under every hook policy. *)
Lemma run_solo t c rs w :
  run Default hooks (replicate 6 t) {[t := mkThread Idle [c] rs]} w =
    (do_call Default hooks t c ≫= λ v, mret {[t := mkThread Idle [] (v :: rs)]}) w.
Proof.
  destruct w as [fl r lh hc n inst].
  cbn [replicate].
  assert (∀ h call, enter Default call [] (mkThread Idle [call] rs) =
                      mret (mkThread (SetIsFinal h) [] rs) →
    run Default hooks [t; t; t; t; t; t] {[t := mkThread Idle [call] rs]}
      (mkWorld fl r lh hc n inst) =
    (setHandler Default hooks h ≫=
       λ v, mret {[t := mkThread Idle [] (VPtr v :: rs)]})
      (mkWorld fl r lh hc n inst)) as Hset.
  { intros h call Henter. rewrite run_cons, step_singleton.
    unfold thread_step. cbn [pc todo]. rewrite Henter.
    cbn [mret M_ret].
    destruct r as [[[cur|] [|]]|]; solo_step.
    - do 2 solo_step. destruct (onSetAfterFinalize cur h); simpl;
        repeat solo_step; reflexivity.
    - do 2 solo_step.
      destruct (decide (Some h ≠ Some cur)); simpl; do 2 solo_step; reflexivity.
    - solo_step. reflexivity.
    - do 2 solo_step.
      destruct (decide (Some h ≠ None)); simpl; repeat solo_step; reflexivity.
    - do 2 solo_step.
      destruct (decide (Some h ≠ Some Default)); simpl; do 2 solo_step;
        reflexivity. }
  destruct c as [|h| |].
  - (* get *)
    destruct (lh !! t) as [[a|]|] eqn:Ht.
    + solo_step. solo_step. rewrite Ht. simpl.
      solo_step. rewrite Ht. simpl.
      destruct (default Activatable_initial (fl !! a)) eqn:Hfl; simpl.
      * solo_step. rewrite Ht. simpl. solo_step. solo_step. reflexivity.
      * solo_step. destruct r as [[c f]|]; simpl.
        -- solo_step. rewrite lookup_insert_eq. simpl.
           destruct c; simpl; [|reflexivity]. solo_step. reflexivity.
        -- solo_step. rewrite lookup_insert_eq. simpl. solo_step. reflexivity.
    + solo_step. solo_step. rewrite Ht. simpl.
      solo_step. rewrite Ht. simpl. reflexivity.
    + solo_step. solo_step. rewrite Ht. simpl.
      destruct r as [[c f]|]; simpl.
      * solo_step. rewrite lookup_insert_eq. simpl.
        destruct c as [c|]; simpl; [|reflexivity].
        destruct (default Activatable_initial (fl !! c)) eqn:Hfl; simpl.
        -- solo_step. rewrite lookup_insert_eq. simpl. solo_step. solo_step. reflexivity.
        -- solo_step. solo_step. rewrite lookup_insert_eq. simpl. solo_step. reflexivity.
      * solo_step. rewrite lookup_insert_eq. simpl.
        destruct (default Activatable_initial (fl !! Default)) eqn:Hfl; simpl.
        -- solo_step. rewrite lookup_insert_eq. simpl. solo_step. solo_step. reflexivity.
        -- solo_step. solo_step. rewrite lookup_insert_eq. simpl. solo_step. reflexivity.
  - (* set *)
    rewrite (Hset h (CallSet h) eq_refl). unfold do_call, set.
    rewrite !bind_eq. by destruct (setHandler Default hooks h _).
  - (* reset *)
    rewrite (Hset Default CallReset eq_refl). unfold do_call, reset, getDefault.
    rewrite !bind_eq. simpl. by destruct (setHandler Default hooks Default _).
  - (* finalize *)
    solo_step. solo_step. destruct r as [[cur f]|]; simpl; (do 4 solo_step); reflexivity.
Qed.
End Solo.

(** ** One swap under an arbitrary scheduler *)

Section Interleaving.

Context (Default : addr) (hooks : Hooks).

Lemma same_shared_refl w : same_shared w w.
Proof. done. Qed.

Lemma same_shared_trans w1 w2 w3 :
  same_shared w1 w2 → same_shared w2 w3 → same_shared w1 w3.
Proof. intros (? & ? & ?) (? & ? & ?). split_and!; congruence. Qed.

Lemma construct_constructed w : is_Some (registry w) → construct Default w = w.
Proof. intros [r Hr]. unfold construct. by rewrite Hr. Qed.

Lemma same_shared_caches t c w :
  is_Some (registry w) → same_shared w (caches Default t c w).
Proof.
  intros Hr. unfold caches. rewrite (construct_constructed w Hr). done.
Qed.

Lemma localHandler_store_loaded t c w :
  localHandler_store t (Some c)
    (with_currentLoads (S (currentLoads w)) (construct Default w)) =
  Ret () (caches Default t c w).
Proof. unfold caches, construct. by destruct (registry w). Qed.

(** One step of a thread that only calls [get]. *)
Lemma getter_step t th w :
  wf w → getter th →
  ∃ th' w',
    thread_step Default hooks t th w = Ret th' w' ∧
    getter th' ∧
    (w' = w ∨ ∃ c, current Default w = Some c ∧ w' = caches Default t c w) ∧
    match pc th with
    | Idle =>
        w' = w ∧
        ((todo th = [] ∧ th' = th) ∨
         ∃ rest, todo th = CallGet :: rest ∧
                 th' = mkThread GetDecl rest (returned th))
    | GetReturn =>
        ∃ a, th' = return_with (VRef a) th ∧
             localHandler w' !! t = Some (Some a) ∧
             (localHandler w !! t = Some (Some a) ∨
              localHandler w !! t = None ∧ current Default w = Some a)
    | GetIsActive =>
        returned th' = returned th ∧
        ∃ a, localHandler w' !! t = Some (Some a) ∧
             (localHandler w !! t = Some (Some a) ∨
              localHandler w !! t = None ∧ current Default w = Some a) ∧
             pc th' = (if flag_of w a then GetReturn else GetReload)
    | GetReload =>
        returned th' = returned th ∧ pc th' = GetReturn ∧
        ∃ c, current Default w = Some c ∧ w' = caches Default t c w
    | _ => returned th' = returned th ∧ pc th' = GetIsActive
    end.
Proof.
  intros Hwf [Hpc Htodo]. destruct (wf_current Default w Hwf) as [c Hc].
  assert (∃ a w', localHandler_decl Default t w = Ret (Some a) w' ∧
            localHandler w' !! t = Some (Some a) ∧
            (w' = w ∧ localHandler w !! t = Some (Some a) ∨
             w' = caches Default t a w ∧ localHandler w !! t = None ∧
             current Default w = Some a)) as (a & w1 & Hdecl & Hl1 & Hw1).
  { unfold localHandler_decl. rewrite bind_eq. unfold gets.
    destruct (localHandler w !! t) as [p|] eqn:Ht.
    - destruct (wf_localHandler t p w Hwf Ht) as (a & -> & _).
      exists a, w. eauto.
    - exists c, (caches Default t c w).
      rewrite bind_eq, getCurrent_eq, Hc, bind_eq, localHandler_store_loaded.
      split; [done|]. split; [|by right].
      apply caches_localHandler. }
  destruct th as [p todo rs]. simpl in *.
  destruct p; try done; unfold thread_step; simpl.
  - (* Idle *)
    destruct todo as [|call rest].
    + exists (mkThread Idle [] rs), w. split_and!; eauto. by split.
    + apply Forall_cons in Htodo as [-> Hrest].
      exists (mkThread GetDecl rest rs), w. simpl. split_and!; eauto.
      by split.
  - (* GetDecl *)
    exists (mkThread GetIsActive todo rs), w1. rewrite bind_eq, Hdecl. simpl.
    split_and!; try done. destruct Hw1 as [[-> _]|(-> & _ & ?)]; eauto.
  - (* GetIsActive *)
    exists (mkThread (if negb (flag_of w1 a) then GetReload else GetReturn) todo rs), w1.
    rewrite bind_eq, Hdecl. simpl.
    assert (flag_of w1 a = flag_of w a) as Hfl.
    { destruct Hw1 as [[-> _]|(-> & _ & _)]; [done|].
      unfold flag_of. by rewrite caches_flags. }
    split_and!; try done.
    + split; [|done]. simpl. by destruct (flag_of w1 a).
    + destruct Hw1 as [[-> _]|(-> & _ & ?)]; eauto.
    + exists a. split; [done|]. split.
      * destruct Hw1 as [[_ ?]|(_ & ? & ?)]; eauto.
      * rewrite Hfl. by destruct (flag_of w a).
  - (* GetReload *)
    exists (mkThread GetReturn todo rs), (caches Default t c w).
    rewrite bind_eq, getCurrent_eq, Hc, bind_eq, localHandler_store_loaded.
    simpl. split_and!; eauto. by split.
  - (* GetReturn *)
    exists (mkThread Idle todo (VRef a :: rs)), w1.
    rewrite bind_eq, Hdecl. simpl.
    split_and!; try done.
    + destruct Hw1 as [[-> _]|(-> & _ & ?)]; eauto.
    + exists a. split_and!; try done.
      destruct Hw1 as [[_ ?]|(_ & ? & ?)]; eauto.
Qed.

Lemma same_shared_flag_of w w' a : same_shared w w' → flag_of w' a = flag_of w a.
Proof. intros (Hfl & _ & _). unfold flag_of. by rewrite Hfl. Qed.

Lemma same_shared_ins w w' : same_shared w w' → ins Default w' = ins Default w.
Proof. intros (_ & Hr & _). unfold ins. by rewrite Hr. Qed.

Lemma same_shared_one_active w w' :
  same_shared w w' → one_active Default w → one_active Default w'.
Proof.
  intros Hs. apply one_active_ext.
  - by destruct Hs.
  - unfold current. by rewrite (same_shared_ins w w' Hs).
  - left. by destruct Hs as (_ & _ & ?).
Qed.

Lemma set_phase_ext h th w w' :
  same_shared w w' → set_phase Default h th w → set_phase Default h th w'.
Proof.
  intros (Hfl & Hreg & Hinst). destruct w, w'. simpl in *. subst.
  intros H. exact H.
Qed.

Lemma returns_next_ext h t th w w' :
  same_shared w w' → localHandler w' !! t = localHandler w !! t →
  returns_next Default h t th w → returns_next Default h t th w'.
Proof.
  intros Hs Hl Hnext Hpc. rewrite Hl. unfold current.
  rewrite (same_shared_ins w w' Hs). by apply Hnext.
Qed.

Lemma wf_m_active_store a b w : wf w → wf (m_active_store a b w).
Proof. intros Hwf. exact Hwf. Qed.

Lemma wf_exchanged h w :
  wf w →
  wf (with_installed (h :: installed w)
        (with_registry (Some (mkRegistry (Some h) false)) w)).
Proof.
  intros [Hr Hl]. split; simpl.
  - intros r [= <-]. exists h. split; [done|apply list_elem_of_here].
  - intros t' p Ht'. destruct (Hl t' p Ht') as [_ (a & -> & Ha)].
    split; [eauto|]. exists a. split; [done|by apply list_elem_of_further].
Qed.

(** One step of the thread that calls [set(h)]. *)
Lemma setter_step t h th w :
  wf w → set_phase Default h th w →
  ∃ th' w',
    thread_step Default hooks t th w = Ret th' w' ∧
    wf w' ∧ set_phase Default h th' w' ∧
    localHandler w' = localHandler w ∧
    (finished th → th' = th ∧ w' = w).
Proof.
  intros Hwf [Hreg Hphase].
  pose proof (construct_constructed w Hreg) as Hcon.
  destruct th as [p todo rs]. unfold finished. simpl in *.
  destruct p; try (by destruct todo as [|[] []]).
  - (* Idle *)
    destruct todo as [|[| h' | |] []]; try done.
    + exists (mkThread Idle [] rs), w.
      split; [done|]. split; [done|]. split; [by split|]. done.
    + destruct Hphase as (-> & Hone & Hfin).
      exists (mkThread (SetIsFinal h) [] rs), w.
      split; [done|]. split; [done|]. split; [by split|].
      split; [done|]. by intros [_ ?].
  - (* SetIsFinal *)
    destruct todo; [|done]. destruct Hphase as (-> & Hone & Hfin).
    exists (mkThread (SetActivate h) [] rs), w. unfold thread_step. simpl.
    rewrite bind_eq, instance_eq, bind_eq, m_isFinal_load_eq.
    unfold is_final in *. rewrite ins_construct, Hfin, !Hcon.
    split; [done|]. split; [done|]. split; [by split|].
    split; [done|]. by intros [? _].
  - (* SetActivate *)
    destruct todo; [|done]. destruct Hphase as (-> & Hone & Hfin).
    exists (mkThread (SetExchange h) [] rs), (m_active_store h true w).
    split; [done|]. split; [exact Hwf|]. split; [|split; [done|by intros [? _]]].
    destruct Hone as (c & Hc & Hact & Hoth).
    split; [done|]. simpl. split; [done|]. split; [done|]. exists c.
    split; [done|]. unfold flag_of, m_active_store. simpl.
    split; [|split].
    + destruct (decide (h = c)) as [->|Hne];
        [by rewrite lookup_insert_eq | by rewrite lookup_insert_ne].
    + by rewrite lookup_insert_eq.
    + intros a Ha Hac Hah. rewrite lookup_insert_ne by done. by apply Hoth.
  - (* SetExchange *)
    destruct todo; [|done].
    destruct Hphase as (-> & Hfin & c & Hc & Hactc & Hacth & Hoth).
    unfold thread_step. simpl.
    rewrite bind_eq, m_current_exchange_eq, Hc, Hfin, Hcon.
    pose proof (wf_exchanged h w Hwf) as Hwf'. simpl.
    destruct (decide (Some h ≠ Some c)) as [Hne|Heq].
    + eexists _, _. split; [done|]. split; [exact Hwf'|].
      split; [|split; [done|by intros [? _]]].
      split; [by eexists|]. simpl. exists c.
      split; [done|]. split; [by intros ->|]. split; [done|]. split; [done|].
      intros a [->|Ha]%elem_of_cons Hah Hac; [done|]. by apply Hoth.
    + assert (c = h) as ->.
      { destruct (decide (h = c)) as [->|Hd]; [done|].
        exfalso. apply Heq. congruence. }
      eexists _, _. split; [done|]. split; [exact Hwf'|].
      split; [|split; [done|by intros [? _]]].
      split; [by eexists|]. simpl. split; [|done].
      exists h. split; [done|]. split; [done|].
      intros a [->|Ha]%elem_of_cons Hah; [done|]. by apply Hoth.
  - (* SetDeactivate *)
    destruct todo; [|done].
    destruct Hphase as (c & -> & Hne & Hc & Hact & Hoth).
    exists (mkThread (SetReturn (Some c)) [] rs), (m_active_store c false w).
    split; [done|]. split; [exact Hwf|]. split; [|split; [done|by intros [? _]]].
    split; [done|]. simpl. split; [|done].
    exists h. split; [done|]. unfold flag_of, m_active_store. simpl.
    split.
    + by rewrite lookup_insert_ne.
    + intros a Ha Hah. destruct (decide (a = c)) as [->|Hac].
      * by rewrite lookup_insert_eq.
      * rewrite lookup_insert_ne by done. by apply Hoth.
  - (* SetReturn *)
    destruct todo; [|done].
    exists (mkThread Idle [] (VPtr ret :: rs)), w.
    split; [done|]. split; [done|]. split; [by split|].
    split; [done|]. by intros [? _].
Qed.

(** A step of a getter changes no shared memory and no thread-local but
    its own. *)
Lemma getter_step_frame t th w :
  wf w → is_Some (registry w) → getter th →
  ∃ th' w',
    thread_step Default hooks t th w = Ret th' w' ∧
    getter th' ∧ wf w' ∧ same_shared w w' ∧
    (∀ t', t ≠ t' → localHandler w' !! t' = localHandler w !! t').
Proof.
  intros Hwf Hreg Hg.
  destruct (getter_step t th w Hwf Hg) as (th' & w' & Hstep & Hg' & Hw' & _).
  exists th', w'. split; [done|]. split; [done|].
  destruct Hw' as [->|(c & Hc & ->)]; [done|].
  split; [by apply wf_caches|]. split; [by apply same_shared_caches|].
  intros t' Hne. by apply caches_localHandler_ne.
Qed.

Lemma refs_of_cons_ref a vs : refs_of (VRef a :: vs) = a :: refs_of vs.
Proof. reflexivity. Qed.

(** A step of a getter once [h] is current and the only active handler:
    what the thread returned since then is at most one other handler
    followed by [h] only. *)
Lemma getter_step_settled t h th w k stale rs :
  wf w → is_Some (registry w) →
  one_active Default w → current Default w = Some h →
  getter th →
  refs_of (returned th) = replicate k h ++ stale ++ rs →
  length stale ≤ 1 →
  returns_next Default h t th w ∨ (k = 0 ∧ stale = []) →
  ∃ th' w' k' stale',
    thread_step Default hooks t th w = Ret th' w' ∧
    refs_of (returned th') = replicate k' h ++ stale' ++ rs ∧
    length stale' ≤ 1 ∧
    returns_next Default h t th' w' ∧
    (returns_next Default h t th w → stale' = stale).
Proof.
  intros Hwf Hreg (c & Hc & Hact & Hoth) Hcur Hg Hrefs Hlen Hnext.
  assert (c = h) as -> by congruence.
  destruct (getter_step t th w Hwf Hg) as (th' & w' & Hstep & Hg' & Hw' & Hshape).
  exists th', w'.
  assert (wf w' ∧ same_shared w w') as [Hwf' Hs].
  { destruct Hw' as [->|(c & Hc' & ->)]; [done|].
    split; [by apply wf_caches | by apply same_shared_caches]. }
  assert (∀ a, localHandler w' !! t = Some (Some a) → flag_of w a = true → a = h)
    as Hactive.
  { intros a Ha Hfl. destruct (decide (a = h)) as [|Hne]; [done|].
    destruct (wf_localHandler t _ w' Hwf' Ha) as (a' & [= <-] & Hin).
    destruct Hs as (_ & _ & Hinst). rewrite Hinst in Hin.
    rewrite (Hoth a Hin Hne) in Hfl. done. }
  pose proof Hg as [Hgpc _].
  destruct (pc th) eqn:Hpc; try done.
  - (* Idle *)
    destruct Hshape as [-> [[_ ->]|(rest & _ & ->)]].
    + exists k, stale. split; [done|]. split; [done|]. split; [done|].
      split; [|done]. intros Hp. congruence.
    + exists k, stale. split; [done|]. split; [done|]. split; [done|].
      split; [|done]. by intros [=].
  - (* GetDecl *)
    destruct Hshape as [Hret Hpc']. exists k, stale. rewrite Hret.
    split; [done|]. split; [done|]. split; [done|].
    split; [|done]. intros Hp. congruence.
  - (* GetIsActive *)
    destruct Hshape as (Hret & a & Ha' & Ha & Hpc').
    exists k, stale. rewrite Hret.
    split; [done|]. split; [done|]. split; [done|]. split; [|done].
    intros Hp. rewrite Hp in Hpc'.
    destruct (flag_of w a) eqn:Hfl; [|done].
    left. by rewrite Ha', (Hactive a Ha' Hfl).
  - (* GetReload *)
    destruct Hshape as (Hret & Hpc' & c & Hc' & ->).
    exists k, stale. rewrite Hret.
    split; [done|]. split; [done|]. split; [done|]. split; [|done].
    intros _. left. rewrite caches_localHandler. congruence.
  - (* GetReturn *)
    destruct Hshape as (a & -> & Ha' & Ha).
    change (refs_of (returned (return_with (VRef a) th)))
      with (a :: refs_of (returned th)).
    rewrite Hrefs.
    assert (returns_next Default h t th w → a = h) as Hfresh.
    { intros Hn. destruct (Hn Hpc) as [Hl|[Hl Hcur']];
        destruct Ha as [Ha|[Ha Hcur'']]; congruence. }
    destruct (decide (a = h)) as [->|Hne].
    + exists (S k), stale. split; [done|]. split; [done|]. split; [done|].
      split; [|done]. by intros [=].
    + destruct Hnext as [Hn|[-> ->]]; [by destruct (Hne (Hfresh Hn))|].
      exists 0, [a]. split; [done|]. split; [done|]. split; [simpl; lia|].
      split; [by intros [=]|]. intros Hn. by destruct (Hne (Hfresh Hn)).
Qed.

Lemma step_present t pool w th th' w' :
  pool !! t = Some th →
  thread_step Default hooks t th w = Ret th' w' →
  step Default hooks t pool w = Ret (<[t := th']> pool) w'.
Proof. intros Ht Hstep. unfold step. by rewrite Ht, bind_eq, Hstep. Qed.

Lemma step_absent t pool w :
  pool !! t = None → step Default hooks t pool w = Ret pool w.
Proof. intros Ht. unfold step. by rewrite Ht. Qed.

Lemma set_phase_registry h th w : set_phase Default h th w → is_Some (registry w).
Proof. by intros [? _]. Qed.

Lemma swap_inv_step A h t pool w :
  swap_inv Default A h pool w →
  ∃ pool' w',
    step Default hooks t pool w = Ret pool' w' ∧ swap_inv Default A h pool' w'.
Proof.
  intros (Hwf & (thA & HA & Hphase) & Hgetters).
  destruct (pool !! t) as [th|] eqn:Ht.
  - destruct (decide (t = A)) as [->|Hne].
    + assert (th = thA) as -> by congruence.
      destruct (setter_step A h thA w Hwf Hphase)
        as (th' & w' & Hstep & Hwf' & Hphase' & _ & _).
      exists (<[A := th']> pool), w'.
      split; [by apply (step_present A pool w thA)|]. split; [done|]. split.
      * exists th'. by rewrite lookup_insert_eq.
      * intros t0 th0 Hne0. rewrite lookup_insert_ne by done.
        intros Hl0. by apply (Hgetters t0 th0).
    + destruct (getter_step_frame t th w Hwf (set_phase_registry _ _ _ Hphase)
                  (Hgetters t th Hne Ht))
        as (th' & w' & Hstep & Hg' & Hwf' & Hs & _).
      exists (<[t := th']> pool), w'.
      split; [by apply (step_present t pool w th)|]. split; [done|]. split.
      * exists thA. rewrite lookup_insert_ne by done.
        split; [done|]. by apply (set_phase_ext h thA w w').
      * intros t0 th0 Hne0. destruct (decide (t = t0)) as [<-|Hne'].
        -- rewrite lookup_insert_eq. by intros [= <-].
        -- rewrite lookup_insert_ne by done.
           intros Hl0. by apply (Hgetters t0 th0).
  - exists pool, w. split; [by apply step_absent|].
    split; [done|]. split; [eauto|done].
Qed.

Lemma swap_inv_run A h s pool w :
  swap_inv Default A h pool w →
  ∃ pool' w',
    run Default hooks s pool w = Ret pool' w' ∧ swap_inv Default A h pool' w'.
Proof.
  revert pool w. induction s as [|t s IH]; intros pool w Hinv.
  - exists pool, w. done.
  - destruct (swap_inv_step A h t pool w Hinv) as (pool1 & w1 & Hstep & Hinv1).
    destruct (IH pool1 w1 Hinv1) as (pool' & w' & Hrun & Hinv').
    exists pool', w'. split; [|done].
    cbn [run]. by rewrite bind_eq, Hstep.
Qed.

Lemma settled_inv_step A B h rs P t pool w :
  A ≠ B →
  settled_inv Default A B h rs P pool w →
  ∃ pool' w',
    step Default hooks t pool w = Ret pool' w' ∧
    settled_inv Default A B h rs P pool' w'.
Proof.
  intros HAB (Hinv & (thA & HA & Hfin) & k & stale & Hrefs & Hlen & HP & Hnext).
  pose proof Hinv as (Hwf & (thA' & HA' & Hphase) & Hgetters).
  assert (thA' = thA) as -> by congruence.
  pose proof (set_phase_registry _ _ _ Hphase) as Hreg.
  assert (one_active Default w ∧ current Default w = Some h) as [Hone Hcur].
  { destruct Hphase as [_ Hphase]. destruct Hfin as [Hpc Htodo].
    by rewrite Hpc, Htodo in Hphase. }
  destruct (pool !! t) as [th|] eqn:Ht.
  - destruct (decide (t = A)) as [->|Hne].
    + assert (th = thA) as -> by congruence.
      destruct (setter_step A h thA w Hwf Hphase)
        as (th' & w' & Hstep & _ & _ & _ & Hsame).
      destruct (Hsame Hfin) as [-> ->].
      exists pool, w. split; [|by split; eauto 10].
      rewrite (step_present A pool w thA thA w HA Hstep).
      by rewrite insert_id.
    + pose proof (Hgetters t th Hne Ht) as Hg.
      destruct (swap_inv_step A h t pool w Hinv) as (pool' & w' & Hstep & Hinv').
      exists pool', w'. split; [done|].
      destruct (getter_step_frame t th w Hwf Hreg Hg)
        as (th' & w'' & Hstep' & Hg' & Hwf' & Hs & Hframe).
      rewrite (step_present t pool w th th' w'' Ht Hstep') in Hstep.
      injection Hstep as <- <-.
      split; [done|]. split.
      { exists thA. by rewrite lookup_insert_ne. }
      destruct (decide (t = B)) as [->|HtB].
      * destruct (Hnext th Ht) as [Hn HPn].
        unfold returned_by in Hrefs. rewrite Ht in Hrefs. simpl in Hrefs.
        destruct (getter_step_settled B h th w k stale rs Hwf Hreg Hone Hcur
                    Hg Hrefs Hlen Hn)
          as (th2 & w2 & k' & stale' & Hstep2 & Hrefs' & Hlen' & Hn' & Hst).
        assert (th2 = th' ∧ w2 = w'') as [-> ->] by (split; congruence).
        exists k', stale'. unfold returned_by. rewrite lookup_insert_eq. simpl.
        split; [done|]. split; [done|]. split.
        { intros HPp. rewrite (Hst (HPn HPp)). by apply HP. }
        intros thB [= <-]. split; [by left|done].
      * exists k, stale. unfold returned_by in *.
        rewrite lookup_insert_ne by done.
        split; [done|]. split; [done|]. split; [done|].
        intros thB HB. destruct (Hnext thB HB) as [Hn HPn].
        assert (returns_next Default h B thB w → returns_next Default h B thB w'')
          as Hext.
        { apply (returns_next_ext h B thB w w''); [done | by apply Hframe]. }
        split; [|by intros HPp; apply Hext, HPn].
        destruct Hn as [Hn|?]; [left; by apply Hext | by right].
  - exists pool, w. split; [by apply step_absent|]. by split; eauto 10.
Qed.

Lemma settled_inv_run A B h rs P s pool w :
  A ≠ B →
  settled_inv Default A B h rs P pool w →
  ∃ pool' w',
    run Default hooks s pool w = Ret pool' w' ∧
    settled_inv Default A B h rs P pool' w'.
Proof.
  intros HAB. revert pool w. induction s as [|t s IH]; intros pool w Hinv.
  - exists pool, w. done.
  - destruct (settled_inv_step A B h rs P t pool w HAB Hinv)
      as (pool1 & w1 & Hstep & Hinv1).
    destruct (IH pool1 w1 Hinv1) as (pool' & w' & Hrun & Hinv').
    exists pool', w'. split; [|done].
    cbn [run]. by rewrite bind_eq, Hstep.
Qed.

(** C8 (as amended): thread [A] calls [set(h)] in a world in which one
    handler is active and the registry is open, every other thread only
    calls [get], and the scheduler interleaves their steps in any order
    ([s1] then [s2]).  No step fails.  If [set(h)] has returned by the end
    of [s1], then among the handlers thread [B] returns during [s2] at most
    one, the oldest, is not [h], and all the later ones are [h]; and none
    is other than [h] unless [B] stood at the [return] of a [get] when
    [set(h)] returned. *)
Theorem stale_at_most_once A B h rsA pool0 w0 s1 s2 :
  A ≠ B →
  wf w0 → is_Some (registry w0) →
  one_active Default w0 → is_final Default w0 = false →
  pool0 !! A = Some (mkThread Idle [CallSet h] rsA) →
  (∀ t th, t ≠ A → pool0 !! t = Some th → getter th) →
  ∃ pool1 w1 pool2 w2,
    run Default hooks s1 pool0 w0 = Ret pool1 w1 ∧
    run Default hooks s2 pool1 w1 = Ret pool2 w2 ∧
    ((∃ thA, pool1 !! A = Some thA ∧ finished thA) →
     current Default w1 = Some h ∧
     current Default w2 = Some h ∧
     ∃ k stale,
       refs_of (returned_by B pool2) =
         replicate k h ++ stale ++ refs_of (returned_by B pool1) ∧
       length stale ≤ 1 ∧
       ((∀ thB, pool1 !! B = Some thB → pc thB ≠ GetReturn) → stale = [])).
Proof.
  intros HAB Hwf Hreg Hone Hopen HA Hgetters.
  assert (swap_inv Default A h pool0 w0) as Hinv0.
  { split; [done|]. split; [|done]. eexists. split; [done|]. by split. }
  destruct (swap_inv_run A h s1 pool0 w0 Hinv0) as (pool1 & w1 & Hrun1 & Hinv1).
  destruct (swap_inv_run A h s2 pool1 w1 Hinv1) as (pool2 & w2 & Hrun2 & Hinv2).
  exists pool1, w1, pool2, w2. split; [done|]. split; [done|].
  intros (thA & HA1 & Hfin).
  set (P := ∀ thB, pool1 !! B = Some thB → pc thB ≠ GetReturn).
  assert (settled_inv Default A B h (refs_of (returned_by B pool1)) P pool1 w1) as Hs1.
  { split; [done|]. split; [eauto|]. exists 0, []. split; [done|].
    split; [simpl; lia|]. split; [done|].
    intros thB HB. split; [by right|]. intros HP Hpc. by destruct (HP thB HB). }
  destruct (settled_inv_run A B h _ P s2 pool1 w1 HAB Hs1)
    as (pool2' & w2' & Hrun2' & Hs2).
  assert (pool2' = pool2 ∧ w2' = w2) as [-> ->] by (split; congruence).
  assert (∀ pool w P', settled_inv Default A B h (refs_of (returned_by B pool1)) P' pool w →
            current Default w = Some h) as Hcur.
  { intros pool w P' ((_ & (th & Hth & [_ Hph]) & _) & (th' & Hth' & [Hpc Htd]) & _).
    assert (th' = th) as -> by congruence. rewrite Hpc, Htd in Hph. by destruct Hph. }
  split; [by apply (Hcur pool1 w1 P)|]. split; [by apply (Hcur pool2 w2 P)|].
  destruct Hs2 as (_ & _ & k & stale & Hrefs & Hlen & HP & _).
  exists k, stale. done.
Qed.
End Interleaving.

(** ** No step of any run is undefined *)

Section Safety.
Context (Default : addr) (hooks : Hooks).

Lemma construct_idem w :
  construct Default (construct Default w) = construct Default w.
Proof.
  unfold construct at 1. by rewrite registry_construct.
Qed.

Lemma m_isFinal_store_true_eq w :
  m_isFinal_store Default true w = Ret () (finalizes Default w).
Proof. apply (finalize_eq Default w). Qed.

Lemma installed_construct_mono w a :
  a ∈ installed w → a ∈ installed (construct Default w).
Proof.
  unfold construct. destruct (registry w); simpl; [done|].
  by apply list_elem_of_further.
Qed.

Lemma wf_exchange h w :
  wf w →
  wf (with_installed (h :: installed (construct Default w))
        (with_registry (Some (mkRegistry (Some h) (is_final Default w)))
           (construct Default w))).
Proof.
  intros Hwf. apply (wf_construct Default) in Hwf. destruct Hwf as [Hr Hl].
  split; simpl.
  - intros r [= <-]. exists h. split; [done|apply list_elem_of_here].
  - intros t' p Ht'. destruct (Hl t' p Ht') as [_ (a & -> & Ha)].
    split; [eauto|]. exists a. split; [done|by apply list_elem_of_further].
Qed.

Lemma wf_loaded w :
  wf w → wf (with_currentLoads (S (currentLoads w)) (construct Default w)).
Proof. intros Hwf. apply (wf_construct Default) in Hwf. exact Hwf. Qed.

Lemma localHandler_decl_wf t w :
  wf w →
  ∃ a w', localHandler_decl Default t w = Ret (Some a) w' ∧ wf w' ∧
          localHandler w' !! t = Some (Some a) ∧ a ∈ installed w' ∧
          (∀ b, b ∈ installed w → b ∈ installed w').
Proof.
  intros Hwf. destruct (wf_current Default w Hwf) as [c Hc].
  unfold localHandler_decl. rewrite bind_eq. unfold gets.
  destruct (localHandler w !! t) as [p|] eqn:Ht.
  - destruct (wf_localHandler t p w Hwf Ht) as (a & -> & Ha).
    exists a, w. eauto 10.
  - exists c, (caches Default t c w).
    rewrite bind_eq, getCurrent_eq, Hc, bind_eq, localHandler_store_loaded.
    split; [done|]. split; [by apply wf_caches|].
    split; [apply caches_localHandler|].
    split; [by apply current_installed|]. apply installed_construct_mono.
Qed.

(** One step of any thread in a well-formed world: it is defined, or the
    hook ended the process. *)
Lemma thread_step_safe t th w :
  wf w → thread_ok th →
  (∀ a, a ∈ refs_of (returned th) → a ∈ installed w) →
  (∃ th' w',
     thread_step Default hooks t th w = Ret th' w' ∧
     wf w' ∧ thread_ok th' ∧
     (∀ b, b ∈ installed w → b ∈ installed w') ∧
     (∀ a, a ∈ refs_of (returned th') → a ∈ installed w')) ∨
  (∃ w', thread_step Default hooks t th w = Terminated w' ∧ wf w').
Proof.
  intros Hwf Hok Hrefs. destruct (wf_current Default w Hwf) as [c Hc].
  destruct (localHandler_decl_wf t w Hwf)
    as (a & w1 & Hdecl & Hwf1 & Hl1 & Ha1 & Hmono1).
  destruct th as [p todo rs]. unfold thread_ok in *. simpl in *.
  unfold thread_step. simpl. destruct p.
  - (* Idle *)
    left. destruct todo as [|[|h| |] rest]; eexists _, w;
      (split; [reflexivity|]); split_and!; done.
  - (* GetDecl *)
    left. rewrite bind_eq, Hdecl. eexists _, w1.
    split; [reflexivity|]. split_and!; try done. simpl. eauto.
  - (* GetIsActive *)
    left. rewrite bind_eq, Hdecl. simpl. eexists _, w1.
    split; [reflexivity|]. split_and!; try done.
    + simpl. by destruct (negb _).
    + simpl. eauto.
  - (* GetReload *)
    left. rewrite bind_eq, getCurrent_eq, Hc, bind_eq, localHandler_store_loaded.
    eexists _, (caches Default t c w). split; [reflexivity|].
    split_and!; try done.
    + by apply wf_caches.
    + apply installed_construct_mono.
    + simpl. intros b Hb. by apply installed_construct_mono, Hrefs.
  - (* GetReturn *)
    left. rewrite bind_eq, Hdecl. simpl. eexists _, w1.
    split; [reflexivity|]. split_and!; try done.
    simpl. intros b [->|Hb]%elem_of_cons; eauto.
  - (* SetIsFinal *)
    left. rewrite bind_eq, instance_eq, bind_eq, m_isFinal_load_eq.
    eexists _, _. split; [reflexivity|]. rewrite construct_idem.
    split_and!.
    + by apply wf_construct.
    + simpl. by destruct (is_final _ _).
    + apply installed_construct_mono.
    + simpl. intros b Hb. by apply installed_construct_mono, Hrefs.
  - (* SetHookCurrent *)
    left. rewrite bind_eq, getCurrent_eq, Hc. simpl. eexists _, _.
    split; [reflexivity|]. split_and!; try done.
    + by apply wf_loaded.
    + apply installed_construct_mono.
    + simpl. intros b Hb. by apply installed_construct_mono, Hrefs.
  - (* SetHook *)
    unfold call_onSetAfterFinalize. rewrite !bind_eq. unfold modify.
    destruct (onSetAfterFinalize cur handler).
    + left. eexists _, _. split; [reflexivity|]. split_and!; done.
    + right. eexists. split; [reflexivity|]. exact Hwf.
  - (* SetActivate *)
    left. eexists _, _. split; [reflexivity|]. split_and!; done.
  - (* SetExchange *)
    left. rewrite bind_eq, m_current_exchange_eq, Hc. eexists _, _.
    split; [reflexivity|]. split_and!.
    + by apply wf_exchange.
    + simpl. case_decide; simpl; eauto.
    + intros b Hb. simpl. by apply list_elem_of_further, installed_construct_mono.
    + simpl. intros b Hb.
      by apply list_elem_of_further, installed_construct_mono, Hrefs.
  - (* SetDeactivate *)
    left. destruct Hok as [q ->]. eexists _, _.
    split; [reflexivity|]. split_and!; done.
  - (* SetReturn *)
    left. eexists _, w. split; [reflexivity|]. split_and!; done.
  - (* FinalizeStore *)
    left. rewrite bind_eq, m_isFinal_store_true_eq. eexists _, _.
    split; [reflexivity|]. split_and!; try done.
    + by apply (wf_finalizes Default).
    + apply installed_construct_mono.
    + simpl. intros b Hb. by apply installed_construct_mono, Hrefs.
Qed.

Lemma step_safe t pool w :
  pool_ok pool w →
  (∃ pool' w',
     step Default hooks t pool w = Ret pool' w' ∧ pool_ok pool' w') ∨
  (∃ w', step Default hooks t pool w = Terminated w' ∧ wf w').
Proof.
  intros [Hwf Hpool]. unfold step.
  destruct (pool !! t) as [th|] eqn:Ht; [|left; by exists pool, w].
  destruct (Hpool t th Ht) as [Hok Hrefs].
  destruct (thread_step_safe t th w Hwf Hok Hrefs)
    as [(th' & w' & Hstep & Hwf' & Hok' & Hmono & Hrefs')|(w' & Hstep & Hwf')].
  - left. exists (<[t := th']> pool), w'. rewrite bind_eq, Hstep.
    split; [done|]. split; [done|].
    intros t0 th0. destruct (decide (t = t0)) as [<-|Hne].
    + rewrite lookup_insert_eq. by intros [= <-].
    + rewrite lookup_insert_ne by done. intros Ht0.
      destruct (Hpool t0 th0 Ht0) as [Hok0 Hrefs0]. split; [done|].
      intros a Ha. by apply Hmono, Hrefs0.
  - right. exists w'. by rewrite bind_eq, Hstep.
Qed.

Lemma run_safe s pool w :
  pool_ok pool w →
  (∃ pool' w',
     run Default hooks s pool w = Ret pool' w' ∧ pool_ok pool' w') ∨
  (∃ w', run Default hooks s pool w = Terminated w' ∧ wf w').
Proof.
  revert pool w. induction s as [|t s IH]; intros pool w Hok.
  - left. by exists pool, w.
  - cbn [run]. rewrite bind_eq.
    destruct (step_safe t pool w Hok) as [(pool1 & w1 & -> & Hok1)|(w1 & -> & Hwf1)].
    + apply IH, Hok1.
    + right. by exists w1.
Qed.

Lemma pool_ok_spawn programs : pool_ok (spawn programs) process_start.
Proof.
  split; [apply wf_process_start|].
  intros t th. unfold spawn. rewrite lookup_fmap.
  destruct (programs !! t) as [cs|]; simpl; [|done].
  intros [= <-]. split; [exact I|]. simpl. intros a Ha.
  by apply elem_of_nil in Ha.
Qed.

(** X2: whatever calls the threads make and however the scheduler
    interleaves their steps from the start of the process, no step
    dereferences a null pointer: the run goes through, or the hook ended the
    process; and every handler a [get] returned had been stored to
    [m_current]. *)
Theorem run_never_undefined programs s :
  (∃ pool w,
     run Default hooks s (spawn programs) process_start = Ret pool w ∧
     wf w ∧
     ∀ t a, a ∈ refs_of (returned_by t pool) → a ∈ installed w) ∨
  (∃ w, run Default hooks s (spawn programs) process_start = Terminated w ∧
        wf w).
Proof.
  destruct (run_safe s _ _ (pool_ok_spawn programs))
    as [(pool & w & Hrun & Hwf & Hpool)|Hterm]; [left | by right].
  exists pool, w. split; [done|]. split; [done|].
  intros t a. unfold returned_by.
  destruct (pool !! t) as [th|] eqn:Ht; simpl.
  - by apply (Hpool t th Ht).
  - intros Ha. by apply elem_of_nil in Ha.
Qed.
End Safety.

(** ** Activatable and the visibility of a swap *)

Section Extras.

Context (Default : addr) (hooks : Hooks).

(** X3: assigning an Activatable takes the flag the source has at that
    moment; the two flags are independent afterwards: a later write to the
    source leaves the target as it is.  Copy construction takes the same
    snapshot. *)
Theorem Activatable_assign_snapshot dst src w :
  ∃ w',
    Activatable_assign dst src w = Ret () w' ∧
    flag_of w' dst = flag_of w src ∧
    flag_of w' src = flag_of w src ∧
    (dst ≠ src →
     ∀ b, flag_of (m_active_store src b w') dst = flag_of w src) ∧
    Activatable_copy dst src w =
      Ret () (m_active_store dst (flag_of w src) w).
Proof.
  unfold Activatable_assign. case_decide as Hne.
  - exists (m_active_store dst (flag_of w src) w).
    split; [reflexivity|]. unfold flag_of, m_active_store. simpl.
    split; [by rewrite lookup_insert_eq|].
    split; [by rewrite lookup_insert_ne|].
    split; [|reflexivity].
    intros _ b. rewrite lookup_insert_ne by done. by rewrite lookup_insert_eq.
  - assert (dst = src) as -> by (destruct (decide (dst = src)); [done|by destruct Hne]).
    exists w. split; [reflexivity|]. split; [done|]. split; [done|].
    split; [by intros []|reflexivity].
Qed.

(** X4: after an accepted [set(h)] in a world where one handler was
    active, [get()] on every thread returns [h]. *)
Theorem set_then_get h t w :
  wf w → one_active Default w → is_final Default w = false →
  ∃ prev w' w'',
    set Default hooks h w = Ret (Some prev) w' ∧
    get Default t w' = Ret h w''.
Proof.
  intros Hwf Hone Hopen. destruct (wf_current Default w Hwf) as [prev Hprev].
  exists prev, (installs Default h prev w).
  destruct (get_one_active Default t (installs Default h prev w))
    as (c & w'' & Hc & Hget).
  - by apply wf_installs.
  - by apply one_active_installs.
  - exists w''. split; [by apply setHandler_open|].
    unfold current, ins in Hc. rewrite installs_registry in Hc.
    simpl in Hc. congruence.
Qed.

End Extras.

(** ** What one step does, and invariants of every run *)

Section Effects.
Context (Default : addr) (hooks : Hooks).

Lemma hookCalls_construct w : hookCalls (construct Default w) = hookCalls w.
Proof. unfold construct. by destruct (registry w). Qed.

Lemma unchanged_refl w : unchanged Default w w.
Proof. split; [done|]. split; [done|]. by left. Qed.

Lemma unchanged_caches t c w : unchanged Default w (caches Default t c w).
Proof.
  split; [apply caches_flags|]. split; [apply hookCalls_construct|].
  right. by split.
Qed.

Lemma unchanged_construct w : unchanged Default w (construct Default w).
Proof.
  split; [apply flags_construct|]. split; [apply hookCalls_construct|].
  by right.
Qed.

Lemma localHandler_decl_unchanged t w :
  wf w →
  ∃ a w', localHandler_decl Default t w = Ret (Some a) w' ∧ unchanged Default w w'.
Proof.
  intros Hwf. destruct (wf_current Default w Hwf) as [c Hc].
  unfold localHandler_decl. rewrite bind_eq. unfold gets.
  destruct (localHandler w !! t) as [p|] eqn:Ht.
  - destruct (wf_localHandler t p w Hwf Ht) as (a & -> & Ha).
    exists a, w. split; [done|]. apply unchanged_refl.
  - exists c, (caches Default t c w).
    rewrite bind_eq, getCurrent_eq, Hc, bind_eq, localHandler_store_loaded.
    split; [done|]. apply unchanged_caches.
Qed.

Lemma thread_step_effect t th w :
  wf w → thread_ok th →
  (∃ th' w',
     thread_step Default hooks t th w = Ret th' w' ∧
     step_effect Default th th' w w') ∨
  (∃ c h w',
     pc th = SetHook c h ∧
     thread_step Default hooks t th w = Terminated w' ∧
     flags w' = flags w ∧ registry w' = registry w ∧
     installed w' = installed w ∧ hookCalls w' = (c, h) :: hookCalls w).
Proof.
  intros Hwf Hok. destruct (wf_current Default w Hwf) as [c Hc].
  destruct (localHandler_decl_unchanged t w Hwf) as (a & w1 & Hdecl & Hun).
  destruct th as [p todo rs]. unfold thread_ok, step_effect in *. simpl in *.
  unfold thread_step. simpl. destruct p.
  - (* Idle *)
    left. destruct todo as [|[|h| |] rest]; eexists _, w;
      (split; [reflexivity|]); (split; [apply unchanged_refl|exact I]).
  - (* GetDecl *)
    left. rewrite bind_eq, Hdecl. eexists _, w1.
    split; [reflexivity|]. by split.
  - (* GetIsActive *)
    left. rewrite bind_eq, Hdecl. simpl. eexists _, w1.
    split; [reflexivity|]. split; [done|]. simpl. by destruct (negb _).
  - (* GetReload *)
    left. rewrite bind_eq, getCurrent_eq, Hc, bind_eq, localHandler_store_loaded.
    eexists _, _. split; [reflexivity|]. split; [apply unchanged_caches|done].
  - (* GetReturn *)
    left. rewrite bind_eq, Hdecl. simpl. eexists _, w1.
    split; [reflexivity|]. by split.
  - (* SetIsFinal *)
    left. rewrite bind_eq, instance_eq, bind_eq, m_isFinal_load_eq.
    eexists _, _. split; [reflexivity|]. rewrite construct_idem.
    split; [apply unchanged_construct|]. simpl.
    unfold is_final. by rewrite ins_construct.
  - (* SetHookCurrent *)
    left. rewrite bind_eq, getCurrent_eq, Hc. simpl. eexists _, _.
    split; [reflexivity|]. split; [|by eexists].
    split; [apply flags_construct|]. split; [apply hookCalls_construct|].
    by right.
  - (* SetHook *)
    unfold call_onSetAfterFinalize. rewrite !bind_eq. unfold modify.
    destruct (onSetAfterFinalize cur handler).
    + left. eexists _, _. split; [reflexivity|]. done.
    + right. eexists _, _, _. split; [reflexivity|]. split; [reflexivity|]. done.
  - (* SetActivate *)
    left. eexists _, _. split; [reflexivity|]. done.
  - (* SetExchange *)
    left. rewrite bind_eq, m_current_exchange_eq, Hc. eexists _, _.
    split; [reflexivity|]. exists c. split; [done|]. simpl.
    split; [apply flags_construct|]. split; [apply hookCalls_construct|].
    split; [done|]. split; [done|].
    destruct (decide (Some handler ≠ Some c)) as [Hne|Heq].
    + rewrite decide_False; [done|]. by intros ->.
    + rewrite decide_True; [done|]. destruct (decide (handler = c)); [done|].
      exfalso. apply Heq. congruence.
  - (* SetDeactivate *)
    left. destruct Hok as [q ->]. eexists _, _.
    split; [reflexivity|]. exists q. done.
  - (* SetReturn *)
    left. eexists _, w. split; [reflexivity|]. split; [apply unchanged_refl|done].
  - (* FinalizeStore *)
    left. rewrite bind_eq, m_isFinal_store_true_eq. eexists _, _.
    split; [reflexivity|]. unfold finalizes. simpl.
    split; [apply flags_construct|]. split; [apply hookCalls_construct|]. done.
Qed.

Lemma unchanged_flag_of w w' a : unchanged Default w w' → flag_of w' a = flag_of w a.
Proof. intros (Hfl & _). unfold flag_of. by rewrite Hfl. Qed.

Lemma unchanged_ins w w' : unchanged Default w w' → ins Default w' = ins Default w.
Proof.
  intros (_ & _ & [[Hr _]|[Hr _]]); unfold ins at 1; rewrite Hr; [done|].
  by rewrite registry_construct.
Qed.

Lemma unchanged_current w w' : unchanged Default w w' → current Default w' = current Default w.
Proof. intros Hun. unfold current. by rewrite (unchanged_ins w w'). Qed.

Lemma unchanged_is_final w w' : unchanged Default w w' → is_final Default w' = is_final Default w.
Proof. intros Hun. unfold is_final. by rewrite (unchanged_ins w w'). Qed.

Lemma unchanged_installed w w' a :
  unchanged Default w w' → a ∈ installed w' → a ∈ installed w ∨ current Default w = Some a.
Proof.
  intros (_ & _ & [[_ Hi]|[_ Hi]]); rewrite Hi; [by left|].
  unfold construct, current, ins.
  destruct (registry w); simpl; [by left|].
  intros [->|Ha]%elem_of_cons; [by right | by left].
Qed.

Lemma same_registry_ins w w' :
  registry w' = registry w → ins Default w' = ins Default w.
Proof. intros Hr. unfold ins. by rewrite Hr. Qed.

(** ** Invariants of every run *)

Section RunInvariant.

Variable I : gmap tid Thread → World → Prop.
Variable T : World → Prop.

Hypothesis I_ok : ∀ pool w, I pool w → pool_ok pool w.

Hypothesis I_step : ∀ pool w t th th' w',
  I pool w → pool !! t = Some th →
  step_effect Default th th' w w' →
  pool_ok (<[t := th']> pool) w' →
  I (<[t := th']> pool) w'.

Hypothesis I_terminated : ∀ pool w t th c h w',
  I pool w → pool !! t = Some th → pc th = SetHook c h →
  flags w' = flags w → registry w' = registry w →
  installed w' = installed w → hookCalls w' = (c, h) :: hookCalls w →
  T w'.

Lemma step_invariant t pool w :
  I pool w →
  (∃ pool' w', step Default hooks t pool w = Ret pool' w' ∧ I pool' w') ∨
  (∃ w', step Default hooks t pool w = Terminated w' ∧ T w').
Proof using I_ok I_step I_terminated.
  intros HI. pose proof (I_ok pool w HI) as Hok.
  destruct (pool !! t) as [th|] eqn:Ht.
  - destruct Hok as [Hwf Hpool]. destruct (Hpool t th Ht) as [Hth _].
    destruct (thread_step_effect t th w Hwf Hth)
      as [(th' & w' & Hstep & Heff)|(c & h & w' & Hpc & Hstep & Hfl & Hr & Hi & Hh)].
    + left. exists (<[t := th']> pool), w'.
      pose proof (step_present Default hooks t pool w th th' w' Ht Hstep) as Hs.
      split; [done|]. apply (I_step pool w t th th' w' HI Ht Heff).
      destruct (step_safe Default hooks t pool w (conj Hwf Hpool))
        as [(pool2 & w2 & Hs2 & Hok2)|(w2 & Hs2 & _)]; [|congruence].
      rewrite Hs in Hs2. by injection Hs2 as <- <-.
    + right. exists w'. split.
      * unfold step. by rewrite Ht, bind_eq, Hstep.
      * by apply (I_terminated pool w t th c h w').
  - left. exists pool, w. split; [by apply step_absent | done].
Qed.

Lemma run_invariant s pool w :
  I pool w →
  (∃ pool' w', run Default hooks s pool w = Ret pool' w' ∧ I pool' w') ∨
  (∃ w', run Default hooks s pool w = Terminated w' ∧ T w').
Proof using I_ok I_step I_terminated.
  revert pool w. induction s as [|t s IH]; intros pool w HI.
  - left. by exists pool, w.
  - cbn [run]. rewrite bind_eq.
    destruct (step_invariant t pool w HI) as [(pool1 & w1 & -> & HI1)|(w1 & -> & HT)].
    + by apply IH.
    + right. by exists w1.
Qed.

End RunInvariant.

Lemma swap_pending_keep a t th th' pool :
  pool !! t = Some th → swapping (pc th) = false →
  swap_pending a pool → swap_pending a (<[t := th']> pool).
Proof.
  intros Ht Hpc (u & thu & Hu & Hpcu). exists u, thu. split; [|done].
  rewrite lookup_insert_ne; [done|]. intros <-.
  assert (thu = th) as -> by congruence.
  destruct Hpcu as [Hp|Hp]; by rewrite Hp in Hpc.
Qed.

Lemma swap_pending_keep_other a b t th th' pool :
  pool !! t = Some th → a ≠ b →
  (pc th = SetExchange b ∨ pc th = SetDeactivate (Some b)) →
  swap_pending a pool → swap_pending a (<[t := th']> pool).
Proof.
  intros Ht Hne Hpc (u & thu & Hu & Hpcu). exists u, thu. split; [|done].
  rewrite lookup_insert_ne; [done|]. intros <-.
  assert (thu = th) as -> by congruence.
  destruct Hpc as [Hp|Hp], Hpcu as [Hq|Hq]; congruence.
Qed.

Lemma swap_pending_here a t th' pool :
  pc th' = SetExchange a ∨ pc th' = SetDeactivate (Some a) →
  swap_pending a (<[t := th']> pool).
Proof. intros Hpc. exists t, th'. by rewrite lookup_insert_eq. Qed.

Lemma converging_step pool w t th th' w' :
  converging Default pool w → pool !! t = Some th →
  step_effect Default th th' w w' →
  pool_ok (<[t := th']> pool) w' →
  converging Default (<[t := th']> pool) w'.
Proof.
  intros [Hok Hconv] Ht Heff Hok'. split; [done|].
  assert (∀ a, unchanged Default w w' → swapping (pc th) = false →
            a ∈ installed w' → current Default w' ≠ Some a → flag_of w' a = true →
            swap_pending a (<[t := th']> pool)) as Hquiet.
  { intros a Hun Hpc Hin Hcur Hfl.
    rewrite (unchanged_current w w' Hun) in Hcur.
    rewrite (unchanged_flag_of w w' a Hun) in Hfl.
    destruct (unchanged_installed w w' a Hun Hin) as [Hin'|?]; [|done].
    apply (swap_pending_keep a t th); [done..|]. by apply Hconv. }
  unfold step_effect in Heff. intros a Hin Hcur Hfl.
  destruct (pc th) eqn:Hpc;
    try (destruct Heff as [Hun _]; by apply Hquiet).
  - (* SetHook *)
    destruct Heff as (Hf & Hr & Hi & _).
    apply (swap_pending_keep a t th); [done | by rewrite Hpc |].
    apply Hconv.
    + by rewrite <- Hi.
    + unfold current in *. by rewrite <- (same_registry_ins w w' Hr).
    + unfold flag_of in *. by rewrite <- Hf.
  - (* SetActivate *)
    destruct Heff as (Hf & Hr & Hi & _ & Hpc').
    destruct (decide (a = handler)) as [->|Hne].
    + apply swap_pending_here. by left.
    + apply (swap_pending_keep a t th); [done | by rewrite Hpc |].
      apply Hconv.
      * by rewrite <- Hi.
      * unfold current in *. by rewrite <- (same_registry_ins w w' Hr).
      * unfold flag_of in *. rewrite Hf in Hfl. by rewrite lookup_insert_ne in Hfl.
  - (* SetExchange *)
    destruct Heff as (c & Hc & Hf & _ & Hr & Hi & Hpc').
    assert (current Default w' = Some handler) as Hcur'.
    { unfold current, ins. by rewrite Hr. }
    assert (a ≠ handler) as Hah by (intros ->; by apply Hcur).
    rewrite Hi in Hin. apply elem_of_cons in Hin as [->|Hin]; [done|].
    destruct (decide (a = c)) as [->|Hac].
    + apply swap_pending_here. right. rewrite Hpc'.
      rewrite decide_False; [done|]. by intros ->.
    + apply (swap_pending_keep_other a handler t th); [done..|by left|].
      apply Hconv.
      * destruct (installed_construct Default w a c Hc Hin); [done|done].
      * rewrite Hc. congruence.
      * unfold flag_of in *. by rewrite <- Hf.
  - (* SetDeactivate *)
    destruct Heff as (c & -> & Hf & Hr & Hi & _ & Hpc').
    assert (a ≠ c) as Hac.
    { intros ->. unfold flag_of in Hfl. rewrite Hf in Hfl.
      by rewrite lookup_insert_eq in Hfl. }
    apply (swap_pending_keep_other a c t th); [done..|by right|].
    apply Hconv.
    + by rewrite <- Hi.
    + unfold current in *. by rewrite <- (same_registry_ins w w' Hr).
    + unfold flag_of in *. rewrite Hf in Hfl. by rewrite lookup_insert_ne in Hfl.
  - (* FinalizeStore *)
    destruct Heff as (Hf & _ & Hr & Hi & _).
    assert (current Default w' = current Default w) as Hcw.
    { unfold current at 1. unfold ins. by rewrite Hr. }
    rewrite Hcw in Hcur. rewrite Hi in Hin.
    destruct (wf_current Default w (proj1 Hok)) as [c Hc].
    apply (swap_pending_keep a t th); [done | by rewrite Hpc |].
    apply Hconv.
    + destruct (installed_construct Default w a c Hc Hin); [congruence|done].
    + done.
    + unfold flag_of in *. by rewrite <- Hf.
Qed.

Lemma pool_ok_run programs s pool w :
  run Default hooks s (spawn programs) process_start = Ret pool w →
  pool_ok pool w.
Proof.
  intros Hrun.
  destruct (run_safe Default hooks s _ _ (pool_ok_spawn programs))
    as [(pool' & w' & Hrun' & Hok)|(w' & Hrun' & _)]; [|congruence].
  rewrite Hrun in Hrun'. by injection Hrun' as <- <-.
Qed.

Lemma converging_spawn programs : converging Default (spawn programs) process_start.
Proof.
  split; [apply pool_ok_spawn|]. intros a Ha. by apply elem_of_nil in Ha.
Qed.

Lemma converging_run programs s pool w :
  run Default hooks s (spawn programs) process_start = Ret pool w →
  converging Default pool w.
Proof.
  intros Hrun.
  destruct (run_invariant (converging Default) (λ _, True)) with (s := s)
    (pool := spawn programs) (w := process_start)
    as [(pool' & w' & Hrun' & Hconv)|(w' & Hrun' & _)].
  - by intros ? ? [? _].
  - apply converging_step.
  - done.
  - apply converging_spawn.
  - rewrite Hrun in Hrun'. by injection Hrun' as <- <-.
  - congruence.
Qed.

(** X5: from the start of the process, under every interleaving of
    whatever calls the threads make: at a moment when no thread is between
    the activation of its new handler and the deactivation of the previous
    one inside [setHandler], every handler that was ever installed and is
    not the current one is inactive, and a [get()] on any thread, whatever
    it has cached, returns the current handler. *)
Theorem quiescent_get_returns_current programs s pool w t :
  run Default hooks s (spawn programs) process_start = Ret pool w →
  map_Forall (λ _ th, swapping (pc th) = false) pool →
  (∀ a, a ∈ installed w → current Default w ≠ Some a → flag_of w a = false) ∧
  ∃ c w', current Default w = Some c ∧ get Default t w = Ret c w'.
Proof.
  intros Hrun Hquiet.
  destruct (converging_run programs s pool w Hrun) as [[Hwf _] Hconv].
  assert (∀ a, a ∈ installed w → current Default w ≠ Some a → flag_of w a = false)
    as Hinactive.
  { intros a Hin Hcur. destruct (flag_of w a) eqn:Hfl; [|done].
    destruct (Hconv a Hin Hcur Hfl) as (u & th & Hu & Hpc).
    pose proof (Hquiet u th Hu) as Hq. simpl in Hq.
    destruct Hpc as [Hp|Hp]; by rewrite Hp in Hq. }
  split; [done|].
  destruct (get_world Default t w Hwf) as (c & a & w' & Hc & Hget & _ & Hcase).
  exists c, w'. split; [done|]. rewrite Hget. f_equal.
  destruct Hcase as [(Ht & Hfl & _)|[(b & _ & _ & -> & _)|(_ & -> & _)]];
    [|done..].
  destruct (wf_localHandler t _ w Hwf Ht) as (a' & [= <-] & Ha).
  destruct (decide (a = c)) as [|Hne]; [done|].
  rewrite Hinactive in Hfl; [done | done | congruence].
Qed.

Lemma frozen_step fl r pool w t th th' w' :
  frozen Default fl r pool w → pool !! t = Some th →
  step_effect Default th th' w w' →
  pool_ok (<[t := th']> pool) w' →
  frozen Default fl r (<[t := th']> pool) w'.
Proof.
  intros (Hok & Hfin & <- & <- & Hfree) Ht Heff Hok'.
  pose proof (Hfree t th Ht) as Hpc. simpl in Hpc.
  pose proof (is_final_constructed Default w Hfin) as Hcon.
  assert (unchanged Default w w' → is_final Default w' = true ∧ flags w' = flags w ∧
                           registry w' = registry w) as Hun.
  { intros Hun. split; [by rewrite (unchanged_is_final w w')|].
    destruct Hun as (Hf & _ & [[Hr _]|[Hr _]]); [done|]. by rewrite Hcon in Hr. }
  assert (swap_free (pc th') = true →
          is_final Default w' = true ∧ flags w' = flags w ∧ registry w' = registry w →
          frozen Default (flags w) (registry w) (<[t := th']> pool) w') as Hdone.
  { intros Hpc' (? & ? & ?). split; [done|]. split; [done|].
    split; [done|]. split; [done|]. by apply map_Forall_insert_2. }
  unfold step_effect in Heff. destruct (pc th) eqn:Hpcth; try done.
  - destruct Heff as [Hu Hc]. apply Hdone; [|by apply Hun]. by destruct (pc th').
  - destruct Heff as [Hu Hc]. apply Hdone; [|by apply Hun]. by destruct (pc th').
  - destruct Heff as [Hu Hc]. apply Hdone; [|by apply Hun]. by destruct (pc th').
  - destruct Heff as [Hu Hc]. apply Hdone; [|by apply Hun]. by destruct (pc th').
  - destruct Heff as [Hu Hc]. apply Hdone; [|by apply Hun]. by destruct (pc th').
  - destruct Heff as [Hu Hc]. apply Hdone; [|by apply Hun].
    by rewrite Hc, Hfin.
  - destruct Heff as [Hu [c Hc]]. apply Hdone; [|by apply Hun]. by rewrite Hc.
  - destruct Heff as (Hf & Hr & _ & _ & Hc). apply Hdone; [by rewrite Hc|].
    split; [|done]. unfold is_final.
    by rewrite (same_registry_ins w w' Hr).
  - destruct Heff as [Hu Hc]. apply Hdone; [|by apply Hun]. by rewrite Hc.
  - destruct Heff as (Hf & _ & Hr & _ & Hc). apply Hdone; [by rewrite Hc|].
    split; [unfold is_final, ins; by rewrite Hr|]. split; [done|].
    rewrite Hr. unfold is_final, current, ins in *.
    destruct (registry w) as [[cur f]|]; simpl in *; [by subst|done].
Qed.

(** X6: once the registry is final and no thread is inside the writing
    part of [setHandler], nothing the threads do, in any interleaving,
    changes a handler flag, [m_current] or [m_isFinal] any more: the run
    goes through, or the hook ends the process, with the flags and the
    registry as they were. *)
Theorem finalized_registry_is_frozen programs s1 s2 pool w :
  run Default hooks s1 (spawn programs) process_start = Ret pool w →
  is_final Default w = true →
  map_Forall (λ _ th, swap_free (pc th) = true) pool →
  (∃ pool' w',
     run Default hooks s2 pool w = Ret pool' w' ∧
     flags w' = flags w ∧ registry w' = registry w) ∨
  (∃ w',
     run Default hooks s2 pool w = Terminated w' ∧
     flags w' = flags w ∧ registry w' = registry w).
Proof.
  intros Hrun Hfin Hfree.
  destruct (run_invariant (frozen Default (flags w) (registry w))
              (λ w', flags w' = flags w ∧ registry w' = registry w))
    with (s := s2) (pool := pool) (w := w)
    as [(pool' & w' & Hrun' & (_ & _ & Hf & Hr & _))|(w' & Hrun' & HT)].
  - by intros ? ? [? _].
  - apply frozen_step.
  - intros pool0 w0 t th c h w' (_ & _ & Hf & Hr & _) _ _ Hf' Hr' _ _.
    split; congruence.
  - split; [by apply (pool_ok_run programs s1)|]. done.
  - left. by exists pool', w'.
  - right. by exists w'.
Qed.

(** One step never makes a final registry open again. *)
Lemma step_effect_is_final th th' w w' :
  wf w → step_effect Default th th' w w' → is_final Default w = true → is_final Default w' = true.
Proof.
  intros Hwf Heff Hfin. unfold step_effect in Heff.
  assert (∀ w0, registry w0 = registry w → is_final Default w0 = true) as Hsame.
  { intros w0 Hr. unfold is_final.
    by rewrite (same_registry_ins w w0 Hr). }
  destruct (pc th);
    try (destruct Heff as [Hun _]; by rewrite (unchanged_is_final w w')).
  - destruct Heff as (_ & Hr & _). by apply Hsame.
  - destruct Heff as (_ & Hr & _). by apply Hsame.
  - destruct Heff as (c & _ & _ & _ & Hr & _).
    unfold is_final at 1. unfold ins. by rewrite Hr.
  - destruct Heff as (c & _ & _ & Hr & _). by apply Hsame.
  - destruct Heff as (_ & _ & Hr & _).
    unfold is_final at 1. unfold ins. by rewrite Hr.
Qed.

(** X9: [finalize()] is irreversible under every interleaving: once
    [m_isFinal] is true in a world the process has reached, it is true
    after every further run, whether the run goes through or the hook ends
    the process. *)
Theorem finalize_is_irreversible programs s1 s2 pool w :
  run Default hooks s1 (spawn programs) process_start = Ret pool w →
  is_final Default w = true →
  (∃ pool' w',
     run Default hooks s2 pool w = Ret pool' w' ∧ is_final Default w' = true) ∨
  (∃ w', run Default hooks s2 pool w = Terminated w' ∧ is_final Default w' = true).
Proof.
  intros Hrun Hfin.
  destruct (run_invariant (λ pool w, pool_ok pool w ∧ is_final Default w = true)
              (λ w', is_final Default w' = true))
    with (s := s2) (pool := pool) (w := w)
    as [(pool' & w' & Hrun' & _ & Hf)|(w' & Hrun' & HT)].
  - by intros ? ? [? _].
  - intros pool0 w0 t th th' w' [[Hwf _] Hf] _ Heff Hok'. split; [done|].
    by apply (step_effect_is_final th th' w0 w').
  - intros pool0 w0 t th c h w' [_ Hf] _ _ _ Hr _ _.
    unfold is_final in *. by rewrite (same_registry_ins w0 w' Hr).
  - split; [by apply (pool_ok_run programs s1)|done].
  - left. by exists pool', w'.
  - right. by exists w'.
Qed.

Lemma hook_unused_step pool w t th th' w' :
  hook_unused Default pool w → pool !! t = Some th →
  step_effect Default th th' w w' →
  pool_ok (<[t := th']> pool) w' →
  hook_unused Default (<[t := th']> pool) w'.
Proof.
  intros [Hok Hopen] Ht Heff Hok'. split; [done|]. intros Hfin'.
  assert (is_final Default w = false) as Hfin.
  { destruct (is_final Default w) eqn:Hf; [|done].
    by rewrite (step_effect_is_final th th' w w' (proj1 Hok) Heff Hf) in Hfin'. }
  destruct (Hopen Hfin) as [Hhook Hnone].
  pose proof (Hnone t th Ht) as Hpc. simpl in Hpc.
  assert (hookCalls w' = hookCalls w ∧ rejecting (pc th') = false) as [Hh Hpc'].
  { unfold step_effect in Heff. destruct (pc th) eqn:Hpcth; try done.
    - destruct Heff as [(_ & Hh & _) Hc]. split; [done|]. by destruct (pc th').
    - destruct Heff as [(_ & Hh & _) Hc]. split; [done|]. by destruct (pc th').
    - destruct Heff as [(_ & Hh & _) Hc]. split; [done|]. by destruct (pc th').
    - destruct Heff as [(_ & Hh & _) Hc]. split; [done|]. by destruct (pc th').
    - destruct Heff as [(_ & Hh & _) Hc]. split; [done|]. by destruct (pc th').
    - destruct Heff as [(_ & Hh & _) Hc]. split; [done|]. by rewrite Hc, Hfin.
    - destruct Heff as (_ & _ & _ & Hh & Hc). split; [done|]. by rewrite Hc.
    - destruct Heff as (c & _ & _ & Hh & _ & _ & Hc). split; [done|].
      rewrite Hc. by case_decide.
    - destruct Heff as (c & _ & _ & _ & _ & Hh & Hc). split; [done|]. by rewrite Hc.
    - destruct Heff as [(_ & Hh & _) Hc]. split; [done|]. by rewrite Hc.
    - destruct Heff as (_ & Hh & _ & _ & Hc). split; [done|]. by rewrite Hc. }
  split; [congruence|]. by apply map_Forall_insert_2.
Qed.

(** X8: the hook [onSetAfterFinalize] is only called on a final
    registry: from the start of the process and under every interleaving,
    as long as the registry is open the hook has not been called, and a
    process that the hook ended had a final registry. *)
Theorem hook_only_after_finalize programs s :
  (∃ pool w,
     run Default hooks s (spawn programs) process_start = Ret pool w ∧
     (is_final Default w = false → hookCalls w = [])) ∨
  (∃ w,
     run Default hooks s (spawn programs) process_start = Terminated w ∧
     is_final Default w = true).
Proof.
  destruct (run_invariant (hook_unused Default) (λ w', is_final Default w' = true))
    with (s := s) (pool := spawn programs) (w := process_start)
    as [(pool' & w' & Hrun' & _ & Hopen)|(w' & Hrun' & HT)].
  - by intros ? ? [? _].
  - apply hook_unused_step.
  - intros pool0 w0 t th c h w' [_ Hopen] Ht Hpc _ Hr _ _.
    unfold is_final at 1. rewrite (same_registry_ins w0 w' Hr).
    destruct (is_final Default w0) eqn:Hf; [done|].
    destruct (Hopen eq_refl) as [_ Hnone]. pose proof (Hnone t th Ht) as Hq.
    simpl in Hq. by rewrite Hpc in Hq.
  - split; [apply pool_ok_spawn|]. intros _. split; [done|].
    intros t th. unfold spawn. rewrite lookup_fmap.
    destruct (programs !! t); simpl; [|done]. by intros [= <-].
  - left. exists pool', w'. split; [done|]. intros Hf. by destruct (Hopen Hf).
  - right. by exists w'.
Qed.
End Effects.


(** ** Calls in sequence, and a [set] racing [finalize()] *)

Section Composition.
Context (Default : addr) (hooks : Hooks).

Lemma caches_ins t c w : ins Default (caches Default t c w) = ins Default w.
Proof. unfold ins at 1. by rewrite caches_registry. Qed.

Lemma caches_hookCalls t c w : hookCalls (caches Default t c w) = hookCalls w.
Proof. unfold caches, construct. by destruct (registry w). Qed.

(** X11: [get()] is stable: a second [get()] on the same thread, with
    nothing in between, returns the handler the first one returned; the two
    calls leave the flags, [m_current], [m_isFinal] and the hook's record
    as they were; and if the handler was active, the second call changes
    nothing at all. *)
Theorem get_twice t w :
  wf w →
  ∃ a w1 w2,
    get Default t w = Ret a w1 ∧
    get Default t w1 = Ret a w2 ∧
    flags w2 = flags w ∧
    current Default w2 = current Default w ∧
    is_final Default w2 = is_final Default w ∧
    hookCalls w2 = hookCalls w ∧
    (flag_of w a = true → w2 = w1).
Proof.
  intros Hwf.
  destruct (get_world Default t w Hwf) as (c & a & w1 & Hc & Hget & Hwf1 & Hcase).
  assert (localHandler w1 !! t = Some (Some a) ∧ flags w1 = flags w ∧
          ins Default w1 = ins Default w ∧ hookCalls w1 = hookCalls w ∧
          (flag_of w a = false → a = c)) as (Hl1 & Hf1 & Hi1 & Hh1 & Hac).
  { destruct Hcase as [(Ht & Hfl & ->)|[(b & Ht & Hfl & -> & ->)|(Ht & -> & ->)]].
    - split; [done|]. split; [done|]. split; [done|]. split; [done|]. congruence.
    - rewrite caches_localHandler, caches_flags, caches_ins, caches_hookCalls.
      done.
    - destruct (flag_of w c);
        rewrite ?caches_localHandler, ?caches_flags, ?caches_ins,
          ?caches_hookCalls; done. }
  assert (flag_of w1 a = flag_of w a) as Hfl1 by (unfold flag_of; by rewrite Hf1).
  exists a, w1. destruct (flag_of w a) eqn:Hfl.
  - exists w1. rewrite (get_cached_active Default t a w1 Hl1 Hfl1).
    unfold current, is_final. rewrite Hi1. done.
  - assert (a = c) as -> by (by apply Hac).
    assert (current Default w1 = Some c) as Hc1.
    { unfold current in *. by rewrite Hi1. }
    exists (caches Default t c w1).
    rewrite (get_cached_inactive Default t c c w1 Hl1 Hfl1 Hc1).
    rewrite caches_flags, caches_hookCalls.
    unfold current, is_final. rewrite caches_ins, Hi1. done.
Qed.

Lemma do_calls_cons t c rest w :
  do_calls Default hooks ((t, c) :: rest) w =
    match do_call Default hooks t c w with
    | Ret v w1 =>
        match do_calls Default hooks rest w1 with
        | Ret vs w2 => Ret (v :: vs) w2
        | Terminated w2 => Terminated w2
        | Undefined => Undefined
        end
    | Terminated w1 => Terminated w1
    | Undefined => Undefined
    end.
Proof. reflexivity. Qed.

Lemma do_call_set t h w :
  do_call Default hooks t (CallSet h) w =
    match setHandler Default hooks h w with
    | Ret p w1 => Ret (VPtr p) w1
    | Terminated w1 => Terminated w1
    | Undefined => Undefined
    end.
Proof. reflexivity. Qed.

(** X10: [set] hands back the chain of handlers: on an open registry a
    sequence of [set] calls, on whatever threads, goes through without the
    hook; every call returns the handler the call before it installed (the
    first one the handler that was current), and the last handler is the
    current one afterwards. *)
Theorem sets_return_previous cs w c :
  wf w → is_final Default w = false → current Default w = Some c →
  ∃ w',
    do_calls Default hooks (set_calls cs) w =
      Ret ((λ p, VPtr (Some p)) <$> take (length cs) (c :: cs.*2)) w' ∧
    wf w' ∧
    is_final Default w' = false ∧
    current Default w' = last (c :: cs.*2) ∧
    hookCalls w' = hookCalls w.
Proof.
  revert w c. induction cs as [|[t h] cs IH]; intros w c Hwf Hopen Hc.
  - exists w. done.
  - destruct (IH (installs Default h c w) h) as (w' & Hrun & Hwf' & Hopen' & Hlast & Hhook).
    + by apply wf_installs.
    + unfold is_final, ins. by rewrite installs_registry.
    + unfold current, ins. by rewrite installs_registry.
    + exists w'.
      change (set_calls ((t, h) :: cs)) with ((t, CallSet h) :: set_calls cs).
      rewrite do_calls_cons, do_call_set.
      rewrite (setHandler_open Default hooks h c w Hopen Hc), Hrun.
      split; [done|]. split; [done|]. split; [done|].
      split; [done|]. by rewrite Hhook, installs_hookCalls.
Qed.

#[local] Arguments run : simpl never.
#[local] Arguments step : simpl never.

Ltac pool_step HA HF :=
  rewrite run_cons; unfold step at 1;
  repeat (rewrite lookup_insert_eq || rewrite lookup_insert_ne by done);
  rewrite ?HA, ?HF; rewrite bind_eq; unfold thread_step; msimpl.

(** X7: [finalize()] does not stop a [set] that has already passed the
    check of [m_isFinal]: thread [A] enters [set(h)] and loads [m_isFinal]
    (false), thread [F] runs [finalize()] from entry to return, then [A]
    runs on.  [A]'s call exchanges [m_current] on the final registry and
    returns the previous handler, not null, and the hook is not called. *)
Theorem set_in_flight_survives_finalize A F h rsA rsF pool w :
  A ≠ F → wf w → is_final Default w = false →
  pool !! A = Some (mkThread Idle [CallSet h] rsA) →
  pool !! F = Some (mkThread Idle [CallFinalize] rsF) →
  ∃ prev pool1 w1 pool2 w2,
    current Default w = Some prev ∧
    run Default hooks [A; A; F; F] pool w = Ret pool1 w1 ∧
    returned_by F pool1 = VVoid :: rsF ∧
    is_final Default w1 = true ∧
    current Default w1 = Some prev ∧
    run Default hooks [A; A; A; A] pool1 w1 = Ret pool2 w2 ∧
    returned_by A pool2 = VPtr (Some prev) :: rsA ∧
    is_final Default w2 = true ∧
    current Default w2 = Some h ∧
    hookCalls w2 = hookCalls w.
Proof.
  intros HAF Hwf Hopen HA HF.
  assert (F ≠ A) as HFA by done.
  destruct (wf_current Default w Hwf) as [prev Hprev]. exists prev.
  destruct w as [fl [[cur f]|] lh hc n inst];
    unfold is_final, current, ins in Hopen, Hprev; simpl in Hopen, Hprev;
    [subst | injection Hprev as <-].
  - destruct (decide (Some h ≠ Some prev)) as [Hne|Heq].
    + eexists _, _. eexists. eexists.
      split; [done|]. split.
      { pool_step HA HF. pool_step HA HF. pool_step HA HF. pool_step HA HF.
        reflexivity. }
      split. { unfold returned_by. by rewrite lookup_insert_eq. }
      split; [done|]. split; [done|]. split.
      { pool_step HA HF. pool_step HA HF. rewrite decide_True by done. simpl.
        pool_step HA HF. pool_step HA HF. reflexivity. }
      split. { unfold returned_by. by rewrite lookup_insert_eq. }
      done.
    + eexists _, _. eexists. eexists.
      split; [done|]. split.
      { pool_step HA HF. pool_step HA HF. pool_step HA HF. pool_step HA HF.
        reflexivity. }
      split. { unfold returned_by. by rewrite lookup_insert_eq. }
      split; [done|]. split; [done|]. split.
      { pool_step HA HF. pool_step HA HF. rewrite decide_False by done. simpl.
        pool_step HA HF. pool_step HA HF. reflexivity. }
      split. { unfold returned_by. by rewrite lookup_insert_eq. }
      done.
  - destruct (decide (Some h ≠ Some Default)) as [Hne|Heq].
    + eexists _, _. eexists. eexists.
      split; [done|]. split.
      { pool_step HA HF. pool_step HA HF. pool_step HA HF. pool_step HA HF.
        reflexivity. }
      split. { unfold returned_by. by rewrite lookup_insert_eq. }
      split; [done|]. split; [done|]. split.
      { pool_step HA HF. pool_step HA HF. rewrite decide_True by done. simpl.
        pool_step HA HF. pool_step HA HF. reflexivity. }
      split. { unfold returned_by. by rewrite lookup_insert_eq. }
      done.
    + eexists _, _. eexists. eexists.
      split; [done|]. split.
      { pool_step HA HF. pool_step HA HF. pool_step HA HF. pool_step HA HF.
        reflexivity. }
      split. { unfold returned_by. by rewrite lookup_insert_eq. }
      split; [done|]. split; [done|]. split.
      { pool_step HA HF. pool_step HA HF. rewrite decide_False by done. simpl.
        pool_step HA HF. pool_step HA HF. reflexivity. }
      split. { unfold returned_by. by rewrite lookup_insert_eq. }
      done.
Qed.
End Composition.


(** * The model evaluated *)

Example end_to_end_scenario :
  ∃ w,
    (set NullLogger ReturningHooks CountingLogger;;
     get NullLogger reader;;
     finalize NullLogger;;
     set NullLogger ReturningHooks AnotherLogger;;
     get NullLogger reader) process_start = Ret CountingLogger w ∧
    hookCalls w = [(CountingLogger, AnotherLogger)] ∧
    current NullLogger w = Some CountingLogger.
Proof. eexists. split; [reflexivity|]. split; reflexivity. Qed.

Example finalize_first :
  finalize NullLogger process_start = Ret () finalized_at_start.
Proof. reflexivity. Qed.

Lemma wf_finalized_at_start : wf finalized_at_start.
Proof.
  split; simpl.
  - intros r [= <-]. exists NullLogger. split; [done | apply list_elem_of_here].
  - intros t p. by rewrite lookup_empty.
Qed.

Example raced_world_reached :
  world_of (run NullLogger DefaultHooks racing_schedule racing_pool
              process_start) = Some raced_world.
Proof. vm_compute. reflexivity. Qed.

Lemma wf_raced_world : wf raced_world.
Proof.
  split; simpl.
  - intros r [= <-]. exists CountingLogger.
    split; [done | apply list_elem_of_here].
  - intros t p [<- <-]%lookup_singleton_Some. split; [eauto|].
    exists NullLogger. split; [done|].
    apply list_elem_of_further, list_elem_of_here.
Qed.

Lemma swap_pool_getters t th :
  t ≠ writer → swap_pool !! t = Some th → getter th.
Proof.
  intros Hne. unfold swap_pool. rewrite lookup_insert_ne by done.
  intros [<- <-]%lookup_singleton_Some. split; [exact I|].
  repeat constructor.
Qed.

(** Witness of C1: the first [set] of a process. *)
Lemma set_installs_witness :
  ∃ w', set NullLogger DefaultHooks CountingLogger process_start =
          Ret (Some NullLogger) w' ∧
        current NullLogger w' = Some CountingLogger ∧
        flag_of w' CountingLogger = true ∧
        flag_of w' NullLogger = false.
Proof.
  destruct (set_installs NullLogger DefaultHooks CountingLogger process_start
              wf_process_start eq_refl)
    as (prev & w' & Hprev & Hset & Hcur & _ & _ & _ & Hnew & Hold & _).
  injection Hprev as <-. exists w'.
  split; [exact Hset|]. split; [exact Hcur|]. split; [exact Hnew|].
  apply Hold. discriminate.
Defined.

(** Witness of C2: a [set] and a [get], then [finalize()] and another
    [get]; the [set] that follows is rejected under a hook that returns,
    and [get] still returns the handler current at finalize time. *)
Lemma set_after_finalize_witness :
  ∃ vs w w' w'',
    do_calls NullLogger ReturningHooks
      [(writer, CallSet CountingLogger); (reader, CallGet);
       (writer, CallFinalize); (reader, CallGet)] process_start = Ret vs w ∧
    set NullLogger ReturningHooks AnotherLogger w = Ret None w' ∧
    registry w' = registry w ∧
    hookCalls w' = [(CountingLogger, AnotherLogger)] ∧
    get NullLogger reader w' = Ret CountingLogger w''.
Proof.
  destruct (set_after_finalize NullLogger ReturningHooks
              [(writer, CallSet CountingLogger); (reader, CallGet)] _ _
              writer [(reader, CallGet)] _ _ AnotherLogger eq_refl eq_refl)
    as (c & w' & Hc & _ & _ & Hset & _ & Hreg & _ & _ & Hhook & Hget).
  injection Hc as <-. destruct (Hget reader) as [_ [w'' Hget']].
  eexists _, _, w', w''. split; [reflexivity|].
  split; [exact Hset|]. split; [exact Hreg|].
  split; [exact Hhook | exact Hget'].
Defined.

(** Counterexample to C2 as stated: under the default hook the call does
    not return null, it ends the process inside the hook. *)
Lemma set_after_finalize_terminates :
  (finalize NullLogger;; set NullLogger DefaultHooks CountingLogger)
    process_start =
  Terminated
    (mkWorld ∅ (Some (mkRegistry (Some NullLogger) true)) ∅
       [(NullLogger, CountingLogger)] 1 [NullLogger]) ∧
  value_of ((finalize NullLogger;; set NullLogger DefaultHooks CountingLogger)
              process_start) = None.
Proof. split; reflexivity. Qed.

(** Witness of C3: the cached handler is inactive, and so is the one the
    reload finds; it is returned all the same, after one load. *)
Lemma get_returns_cached_or_current_witness :
  ∃ w', get NullLogger reader raced_world = Ret CountingLogger w' ∧
        flag_of raced_world CountingLogger = false ∧
        currentLoads w' = currentLoads raced_world + 1 ∧
        localHandler w' !! reader = Some (Some CountingLogger).
Proof.
  destruct (get_returns_cached_or_current NullLogger reader raced_world
              wf_raced_world)
    as (c & a & w' & Hc & Hget & _ & _ & Hl & Hcase).
  injection Hc as <-.
  change (localHandler raced_world !! reader) with (Some (Some NullLogger))
    in Hcase.
  destruct Hcase as (b & Hb & Hcase). injection Hb as <-.
  change (flag_of raced_world NullLogger) with false in Hcase.
  destruct Hcase as [-> Hloads]. exists w'.
  split; [exact Hget|]. split; [reflexivity|]. split; [exact Hloads | exact Hl].
Defined.

(** Witness of C7: a reader and a [finalize()], then [get()] on a third
    thread. *)
Lemma fresh_registry_get_default_witness :
  ∃ vs w w',
    do_calls NullLogger DefaultHooks
      [(reader, CallGet); (writer, CallFinalize); (reader, CallGet)]
      process_start = Ret vs w ∧
    get NullLogger 2 w = Ret NullLogger w' ∧
    flag_of w' NullLogger = true.
Proof.
  apply (fresh_registry_get_default NullLogger DefaultHooks
           [(reader, CallGet); (writer, CallFinalize); (reader, CallGet)] 2).
  repeat constructor.
Defined.

(** Witness of C9: a rejected [setHandler] under the default hook. *)
Lemma rejected_set_changes_nothing_witness :
  ∃ w',
    world_of (setHandler NullLogger DefaultHooks CountingLogger
                finalized_at_start) = Some w' ∧
    flags w' = flags finalized_at_start ∧
    registry w' = registry finalized_at_start ∧
    flag_of w' CountingLogger = flag_of finalized_at_start CountingLogger ∧
    installed w' = installed finalized_at_start.
Proof.
  exact (rejected_set_changes_nothing NullLogger DefaultHooks CountingLogger
           finalized_at_start wf_finalized_at_start eq_refl).
Defined.

(** Witness of C8: the reader stands at the [return] of its first [get]
    when the writer runs its whole [set]; then the reader runs on. *)
Lemma stale_at_most_once_witness :
  ∃ pool1 w1 pool2 w2,
    run NullLogger DefaultHooks
      ([reader; reader; reader] ++ replicate 6 writer)
      swap_pool (construct NullLogger process_start) = Ret pool1 w1 ∧
    run NullLogger DefaultHooks (replicate 10 reader) pool1 w1 = Ret pool2 w2 ∧
    (∃ thA, pool1 !! writer = Some thA ∧ finished thA) ∧
    current NullLogger w1 = Some CountingLogger ∧
    current NullLogger w2 = Some CountingLogger ∧
    ∃ k stale,
      refs_of (returned_by reader pool2) =
        replicate k CountingLogger ++ stale ++
        refs_of (returned_by reader pool1) ∧
      length stale ≤ 1.
Proof.
  destruct (stale_at_most_once NullLogger DefaultHooks writer reader
              CountingLogger [] swap_pool (construct NullLogger process_start)
              ([reader; reader; reader] ++ replicate 6 writer)
              (replicate 10 reader))
    as (pool1 & w1 & pool2 & w2 & Hrun1 & Hrun2 & Hsettled).
  - discriminate.
  - apply wf_construct, wf_process_start.
  - eexists. reflexivity.
  - apply one_active_construct, one_active_process_start.
  - reflexivity.
  - reflexivity.
  - apply swap_pool_getters.
  - assert (∃ thA, pool1 !! writer = Some thA ∧ finished thA) as Hdone.
    { vm_compute in Hrun1. injection Hrun1 as <- _.
      eexists. split; [reflexivity|]. split; reflexivity. }
    destruct (Hsettled Hdone) as (Hcur1 & Hcur2 & k & stale & Hrefs & Hlen & _).
    exists pool1, w1, pool2, w2.
    split; [exact Hrun1|]. split; [exact Hrun2|]. split; [exact Hdone|].
    split; [exact Hcur1|]. split; [exact Hcur2|].
    exists k, stale. split; [exact Hrefs | exact Hlen].
Defined.

(** The run of that witness, evaluated: the first [get] returns the
    replaced handler, the two after it the new one. *)
Example stale_once_then_fresh :
  ∃ pool w,
    run NullLogger DefaultHooks
      ([reader; reader; reader] ++ replicate 6 writer ++ replicate 10 reader)
      swap_pool process_start = Ret pool w ∧
    returned_by writer pool = [VPtr (Some NullLogger)] ∧
    refs_of (returned_by reader pool) =
      [CountingLogger; CountingLogger; NullLogger].
Proof. eexists _, _. split; [vm_compute; reflexivity|]. split; reflexivity. Qed.

(** Counterexample to C8 as stated: the reader has called [get()] once;
    the writer runs [set(CountingLogger)] up to and including the exchange,
    so that [CountingLogger] is in [m_current], and stops before
    [prev->deactivate()]; the reader then calls [get()] twice, each call from
    entry to return, and both calls return [NullLogger]. *)
Lemma stale_twice_before_deactivate :
  ∃ pool1 w1 pool2 w2,
    run NullLogger DefaultHooks (replicate 4 reader ++ replicate 4 writer)
      swap_pool process_start = Ret pool1 w1 ∧
    current NullLogger w1 = Some CountingLogger ∧
    (pc <$> pool1 !! writer) = Some (SetDeactivate (Some NullLogger)) ∧
    (pc <$> pool1 !! reader) = Some Idle ∧
    refs_of (returned_by reader pool1) = [NullLogger] ∧
    run NullLogger DefaultHooks (replicate 8 reader) pool1 w1 = Ret pool2 w2 ∧
    current NullLogger w2 = Some CountingLogger ∧
    (pc <$> pool2 !! reader) = Some Idle ∧
    refs_of (returned_by reader pool2) = [NullLogger; NullLogger; NullLogger].
Proof.
  eexists _, _, _, _.
  split; [vm_compute; reflexivity|].
  split; [reflexivity|]. split; [reflexivity|]. split; [reflexivity|].
  split; [reflexivity|].
  split; [vm_compute; reflexivity|].
  split; [reflexivity|]. split; reflexivity.
Qed.

(** Witness of X4: the first [set] of a process, then a [get]. *)
Lemma set_then_get_witness :
  ∃ prev w' w'',
    set NullLogger DefaultHooks CountingLogger process_start =
      Ret (Some prev) w' ∧
    get NullLogger reader w' = Ret CountingLogger w''.
Proof.
  apply (set_then_get NullLogger DefaultHooks CountingLogger reader
           process_start).
  - apply wf_process_start.
  - apply one_active_process_start.
  - reflexivity.
Defined.

(** Witness of X5: the writer has run its whole [set]; the reader's
    [get()] returns the new handler. *)
Lemma quiescent_get_returns_current_witness :
  ∃ pool w w',
    run NullLogger DefaultHooks (replicate 6 writer) (spawn one_swap)
      process_start = Ret pool w ∧
    flag_of w NullLogger = false ∧
    get NullLogger reader w = Ret CountingLogger w'.
Proof.
  assert (∃ pool w,
            run NullLogger DefaultHooks (replicate 6 writer) (spawn one_swap)
              process_start = Ret pool w ∧
            map_Forall (λ _ th, swapping (pc th) = false) pool ∧
            current NullLogger w = Some CountingLogger ∧
            NullLogger ∈ installed w)
    as (pool & w & Hrun & Hquiet & Hcur & Hin).
  { exists {[writer := mkThread Idle [] [VPtr (Some NullLogger)];
              reader := mkThread Idle [CallGet] []]}.
    eexists. split; [vm_compute; reflexivity|].
    split; [|split; [reflexivity|]].
    - apply map_Forall_insert_2; [reflexivity|].
      apply map_Forall_insert_2; [reflexivity|]. apply map_Forall_empty.
    - apply list_elem_of_further, list_elem_of_here. }
  destruct (quiescent_get_returns_current NullLogger DefaultHooks one_swap
              (replicate 6 writer) pool w reader Hrun Hquiet)
    as [Hinactive (c & w' & Hc & Hget)].
  exists pool, w, w'. split; [exact Hrun|]. split.
  - apply Hinactive; [exact Hin|]. rewrite Hcur. discriminate.
  - rewrite Hcur in Hc. injection Hc as <-. exact Hget.
Defined.

(** Witness of X6: the writer has called [finalize()] and goes on to call
    [set]; the reader calls [get()]. *)
Lemma finalized_registry_is_frozen_witness :
  (∃ pool' w',
     run NullLogger DefaultHooks (replicate 4 writer ++ replicate 5 reader)
       {[writer := mkThread Idle [CallSet CountingLogger] [VVoid];
         reader := mkThread Idle [CallGet] []]}
       finalized_at_start = Ret pool' w' ∧
     flags w' = flags finalized_at_start ∧
     registry w' = registry finalized_at_start) ∨
  (∃ w',
     run NullLogger DefaultHooks (replicate 4 writer ++ replicate 5 reader)
       {[writer := mkThread Idle [CallSet CountingLogger] [VVoid];
         reader := mkThread Idle [CallGet] []]}
       finalized_at_start = Terminated w' ∧
     flags w' = flags finalized_at_start ∧
     registry w' = registry finalized_at_start).
Proof.
  apply (finalized_registry_is_frozen NullLogger DefaultHooks
           set_after_finalize_programs [writer; writer]).
  - vm_compute. reflexivity.
  - reflexivity.
  - apply map_Forall_insert_2; [reflexivity|].
    apply map_Forall_insert_2; [reflexivity|]. apply map_Forall_empty.
Defined.

(** Witness of X7: the first [set] of a process races the [finalize()]. *)
Lemma set_in_flight_survives_finalize_witness :
  ∃ prev pool1 w1 pool2 w2,
    current NullLogger process_start = Some prev ∧
    run NullLogger DefaultHooks [writer; writer; finalizer; finalizer]
      (spawn set_and_finalize) process_start = Ret pool1 w1 ∧
    returned_by finalizer pool1 = [VVoid] ∧
    is_final NullLogger w1 = true ∧
    current NullLogger w1 = Some prev ∧
    run NullLogger DefaultHooks [writer; writer; writer; writer] pool1 w1 =
      Ret pool2 w2 ∧
    returned_by writer pool2 = [VPtr (Some prev)] ∧
    is_final NullLogger w2 = true ∧
    current NullLogger w2 = Some CountingLogger ∧
    hookCalls w2 = hookCalls process_start.
Proof.
  apply (set_in_flight_survives_finalize NullLogger DefaultHooks writer
           finalizer CountingLogger [] [] (spawn set_and_finalize)
           process_start).
  - discriminate.
  - apply wf_process_start.
  - reflexivity.
  - reflexivity.
  - reflexivity.
Defined.

(** Witness of X9: the [set] that was in flight when [finalize()] ran
    completes, and the registry is still final. *)
Lemma finalize_is_irreversible_witness :
  (∃ pool' w',
     run NullLogger DefaultHooks (replicate 4 writer)
       {[writer := mkThread (SetActivate CountingLogger) [] [];
         finalizer := mkThread Idle [] [VVoid]]}
       finalized_at_start = Ret pool' w' ∧
     is_final NullLogger w' = true) ∨
  (∃ w',
     run NullLogger DefaultHooks (replicate 4 writer)
       {[writer := mkThread (SetActivate CountingLogger) [] [];
         finalizer := mkThread Idle [] [VVoid]]}
       finalized_at_start = Terminated w' ∧
     is_final NullLogger w' = true).
Proof.
  apply (finalize_is_irreversible NullLogger DefaultHooks set_and_finalize
           [writer; writer; finalizer; finalizer]).
  - vm_compute. reflexivity.
  - reflexivity.
Defined.

(** Witness of X10: three [set] calls on two threads. *)
Lemma sets_return_previous_witness :
  ∃ w',
    do_calls NullLogger DefaultHooks
      [(writer, CallSet CountingLogger); (reader, CallSet AnotherLogger);
       (writer, CallSet NullLogger)] process_start =
      Ret [VPtr (Some NullLogger); VPtr (Some CountingLogger);
           VPtr (Some AnotherLogger)] w' ∧
    wf w' ∧
    is_final NullLogger w' = false ∧
    current NullLogger w' = Some NullLogger ∧
    hookCalls w' = [].
Proof.
  apply (sets_return_previous NullLogger DefaultHooks
           [(writer, CountingLogger); (reader, AnotherLogger);
            (writer, NullLogger)] process_start NullLogger).
  - apply wf_process_start.
  - reflexivity.
  - reflexivity.
Defined.

(** Witness of X11: the reader caches a handler that is inactive; its
    first [get()] reloads, its second does as well, both return the
    current handler. *)
Lemma get_twice_witness :
  ∃ a w1 w2,
    get NullLogger reader raced_world = Ret a w1 ∧
    get NullLogger reader w1 = Ret a w2 ∧
    flags w2 = flags raced_world ∧
    current NullLogger w2 = current NullLogger raced_world ∧
    is_final NullLogger w2 = is_final NullLogger raced_world ∧
    hookCalls w2 = hookCalls raced_world ∧
    (flag_of raced_world a = true → w2 = w1).
Proof. exact (get_twice NullLogger reader raced_world wf_raced_world). Defined.
